(** * music21.braille.translate: dispatch and orchestration of braille transcription

    A shallow embedding of [music21/braille/translate.py] and the proofs of the
    properties stated about it.

    Conventions of the embedding.
    - Python text ([str]/[unicode]) is a [string] holding its UTF-8 encoding.
      Concatenation and [join] commute with the encoding, byte-wise
      lexicographic order on UTF-8 coincides with code-point order, and the
      ASCII letters are the only bytes below 128 that the character classes
      [[A-Z]] and [[a-z]] accept, so nothing the module computes on text is
      changed by this choice.
    - Python objects live in a store ([Heap]) and are passed by reference
      ([loc]).  Every function is a computation in the monad [M] of a store
      transformer that either returns a value or raises an exception.
    - A keyword dictionary ([**keywords]) is a finite map from names to values.
      Python builds a new dictionary at every call made with [**keywords], so a
      callee's assignments never reach the caller: passing the map by value is
      exact.
    - The functions that [translate.py] calls in other modules of music21
      ([Stream.makeNotation], [segment.findSegments], [BrailleSegment.transcribe],
      [segment.BrailleGrandSegment], ...) are the fields of the record
      [External]; everything proved of the embedding holds for every
      implementation of them unless a statement says otherwise. *)

From Stdlib Require Import Ascii String.
From stdpp Require Import gmap strings list fin_maps sorting pretty.

Open Scope string_scope.

(** ** Text *)

Definition nl : string := String "010"%char "".

(** [sep.join(l)] *)
Definition join (sep : string) (l : list string) : string := String.concat sep l.

(** ** Python values carried by a keyword dictionary *)

Inductive PyVal :=
| VNone
| VBool (b : bool)
| VInt (n : Z)
| VStr (s : string)
| VBreaks (l : list (Z * Z)).

(** Truth value of an object, as tested by [if not x]. *)
Definition truthy (v : PyVal) : bool :=
  match v with
  | VNone => false
  | VBool b => b
  | VInt n => negb (n =? 0)%Z
  | VStr s => negb (String.eqb s "")
  | VBreaks l => match l with [] => false | _ => true end
  end.

Abbreviation Keywords := (gmap string PyVal).

(** ** Objects and the store *)

Definition loc := nat.

(** The classes of music21 that the module tests with [isinstance] or passes
    to [getElementsByClass], and two more ([Voice], [Music21Object]) that stand
    for every class it does not name. *)
Inductive Class :=
| Music21Object
| Stream
| Measure
| Part
| PartStaff
| Score
| Opus
| Voice
| TinyNotationStream
| Metadata.

#[global] Instance Class_eq_dec : EqDecision Class.
Proof. solve_decision. Defined.

(** Method resolution order: [stream.PartStaff] derives from [stream.Part];
    [Measure], [Part], [Score], [Opus], [Voice] and
    [tinyNotation.TinyNotationStream] derive from [stream.Stream];
    [Stream] and [metadata.Metadata] derive from [base.Music21Object]. *)
Definition mro (c : Class) : list Class :=
  match c with
  | Music21Object => [Music21Object]
  | Stream => [Stream; Music21Object]
  | PartStaff => [PartStaff; Part; Stream; Music21Object]
  | Metadata => [Metadata; Music21Object]
  | c => [c; Stream; Music21Object]
  end.

Definition issubclass (c d : Class) : bool := bool_decide (d ∈ mro c).

(** Musical events, the elements of a measure. *)
Inductive DurationType := Whole | Half | Quarter | Eighth | Sixteenth.

Record Duration := MkDuration { dtype : DurationType; dots : nat }.

Inductive Accidental := Sharp | Flat | Natural.

Record Pitch := MkPitch { step : string; octave : Z; accidental : option Accidental }.

Inductive BarStyle := RegularBar | DoubleBar | FinalBar.

Inductive MusicalEvent :=
| Note (pitch : Pitch) (duration : Duration)
| Chord (notes : list Pitch) (duration : Duration)
| Rest (duration : Duration)
| Dynamic (symbol : string)
| KeySignature (fifths : Z)
| TimeSignature (numerator denominator : nat)
| Clef (kind : string)
| TempoMark (text : option string) (metronome : option nat)
| Barline (style : BarStyle).

(** An object: its class, the elements it holds when it is a stream
    ([Stream._elements]), the work identifiers it holds when it is a
    [Metadata] ([Metadata._workIds], a dictionary listed in iteration order, a
    value being [None] or a text), and the event it stands for when it is
    neither. *)
Record Obj := MkObj {
  ocls : Class;
  oelements : list loc;
  oworkIds : list (string * option string);
  oevent : option MusicalEvent
}.

Abbreviation Heap := (gmap loc Obj).

Definition newStream (c : Class) (elems : list loc) : Obj :=
  {| ocls := c; oelements := elems; oworkIds := []; oevent := None |}.

Definition newMetadata (ids : list (string * option string)) : Obj :=
  {| ocls := Metadata; oelements := []; oworkIds := ids; oevent := None |}.

Definition newEvent (e : MusicalEvent) : Obj :=
  {| ocls := Music21Object; oelements := []; oworkIds := []; oevent := Some e |}.

(** ** Exceptions and the monad of computations *)

Inductive Exn :=
| BrailleTranslateException (msg : string)
| ExternalException (name : string).

Inductive Result (A : Type) :=
| Ok (a : A)
| Raise (e : Exn).
Arguments Ok {A} a.
Arguments Raise {A} e.

Definition M (A : Type) : Type := Heap → Result A * Heap.

#[global] Instance M_ret : MRet M := λ A a h, (Ok a, h).

#[global] Instance M_bind : MBind M := λ A B f m h,
  match m h with
  | (Ok a, h') => f a h'
  | (Raise e, h') => (Raise e, h')
  end.

Definition raise {A} (e : Exn) : M A := λ h, (Raise e, h).

(** The elements of the stream at [s]; a location that holds no object has
    none (a well-formed store has no such reference). *)
Definition elements_of (h : Heap) (s : loc) : list loc :=
  match h !! s with Some o => oelements o | None => [] end.

(** Whether the object at [l] is an instance of [c]. *)
Definition is_instance (h : Heap) (c : Class) (l : loc) : bool :=
  match h !! l with Some o => issubclass (ocls o) c | None => false end.

(** The elements of [s] that are instances of [c], in order. *)
Definition contained (h : Heap) (s : loc) (c : Class) : list loc :=
  filter (λ l, is_instance h c l = true) (elements_of h s).

(** [s.getElementsByClass(c)].  (music21 returns the elements in a new
    stream that nothing else refers to; only its list of elements is used.) *)
Definition getElementsByClass (s : loc) (c : Class) : M (list loc) := λ h,
  (Ok (contained h s c), h).

(** [isinstance(obj, c)] *)
Definition isinstance (l : loc) (c : Class) : M bool := λ h, (Ok (is_instance h c l), h).

(** [c()] followed by [append] of each of [elems]: a new stream object. *)
Definition construct (c : Class) (elems : list loc) : M loc := λ h,
  let l := fresh (dom h) in (Ok l, <[l := newStream c elems]> h).

(** ** Text operations used by [metadataToString] *)

Definition is_upper (c : ascii) : bool :=
  (65 <=? nat_of_ascii c)%nat && (nat_of_ascii c <=? 90)%nat.

Definition is_lower (c : ascii) : bool :=
  (97 <=? nat_of_ascii c)%nat && (nat_of_ascii c <=? 122)%nat.

Definition to_upper (c : ascii) : ascii :=
  if is_lower c then ascii_of_nat (nat_of_ascii c - 32) else c.

Definition to_lower (c : ascii) : ascii :=
  if is_upper c then ascii_of_nat (nat_of_ascii c + 32) else c.

(** The longest prefix of [s] whose characters satisfy [p], and the rest. *)
Fixpoint span (p : ascii → bool) (s : string) : string * string :=
  match s with
  | "" => ("", "")
  | String c s' =>
      if p c then let '(a, b) := span p s' in (String c a, b) else ("", s)
  end.

(** One match of [[A-Z]*[a-z]+] anchored at the start of [s]: the matched
    text and what follows it.  [[A-Z]*] is greedy; giving back capitals cannot
    help, because [[a-z]+] would then have to start on a capital, so the only
    candidate is the longest run of capitals followed by the longest run of
    small letters. *)
Definition match_word (s : string) : option (string * string) :=
  let '(u, r) := span is_upper s in
  let '(l, r') := span is_lower r in
  match l with
  | "" => None
  | _ => Some (u ++ l, r')
  end.

(** [re.findall(r"([A-Z]*[a-z]+)", s)]: scan from the left; at a position
    where the pattern matches, record the match and resume after it;
    elsewhere move on by one character.  Each step consumes a character, so
    [String.length s] steps are enough. *)
Fixpoint findall_fuel (fuel : nat) (s : string) : list string :=
  match fuel with
  | 0 => []
  | S fuel' =>
      match s with
      | "" => []
      | String _ tl =>
          match match_word s with
          | Some (w, rest) => w :: findall_fuel fuel' rest
          | None => findall_fuel fuel' tl
          end
      end
  end.

Definition findall (s : string) : list string := findall_fuel (String.length s) s.

(** [s.title()], exact on ASCII text (the only text it is applied to): a
    letter that follows a letter is made small, any other letter is made
    capital. *)
Fixpoint title_from (previous_is_cased : bool) (s : string) : string :=
  match s with
  | "" => ""
  | String c s' =>
      if is_lower c then
        String (if previous_is_cased then c else to_upper c) (title_from true s')
      else if is_upper c then
        String (if previous_is_cased then to_lower c else c) (title_from true s')
      else String c (title_from false s')
  end.

Definition title (s : string) : string := title_from false s.

(** Order of [str] values: lexicographic on code points. *)
Definition string_le (s t : string) : Prop := String.leb s t = true.

#[global] Instance string_le_dec : RelDecision string_le.
Proof. intros s t. unfold string_le. apply _. Defined.

(** [sorted(l)] on a list of texts. *)
Definition sorted (l : list string) : list string := merge_sort string_le l.

(** ["{0}: {1}".format(n.title(), value)] with [n] the words of [key]. *)
Definition format_workId (key value : string) : string :=
  title (join " " (findall key)) ++ ": " ++ value.

(** The loop of [metadataToString] over [_workIds]. *)
Fixpoint workId_loop (ids : list (string * option string)) (allBrailleLines : list string)
  : list string :=
  match ids with
  | [] => allBrailleLines
  | (key, value) :: ids' =>
      match value with
      | Some v => workId_loop ids' (allBrailleLines ++ [format_workId key v])
      | None => workId_loop ids' allBrailleLines
      end
  end.

Definition workIds_of (h : Heap) (md : loc) : list (string * option string) :=
  match h !! md with Some o => oworkIds o | None => [] end.

Definition metadataToString (music21Metadata : loc) : M string := λ h,
  (Ok (join nl (sorted (workId_loop (workIds_of h music21Metadata) []))), h).

(** ** What [translate.py] calls in the rest of music21 *)

(** [makeNotation s] is [s.makeNotation(cautionaryNotImmediateRepeat=False)];
    [findSegments p kw] is [segment.findSegments(p, **kw)];
    [transcribe seg] is [seg.transcribe()] and [segment_str seg] is [str(seg)]
    for a [BrailleSegment];
    [BrailleGrandSegment rh lh] is the constructor call,
    [transcription bg] the attribute access [bg.transcription] and
    [grand_str bg] is [str(bg)]. *)
Record External := MkExternal {
  Segment : Type;
  GrandSegment : Type;
  makeNotation : loc → M loc;
  findSegments : loc → Keywords → M (list Segment);
  transcribe : Segment → M string;
  segment_str : Segment → M string;
  BrailleGrandSegment : Segment → Segment → M GrandSegment;
  transcription : GrandSegment → M string;
  grand_str : GrandSegment → M string
}.

(** ** The module *)

(** [for x in xs: allBrailleLines.append(body(x))], started with the lines
    gathered so far; the result is the list after the loop. *)
Fixpoint for_append {X} (xs : list X) (body : X → M string)
    (allBrailleLines : list string) : M (list string) :=
  match xs with
  | [] => mret allBrailleLines
  | x :: xs' => line ← body x; for_append xs' body (allBrailleLines ++ [line])
  end.

(** [u"\n".join([unicode(bt) for bt in allBrailleText])]; [unicode] of a text
    is that text. *)
Definition join_lines (allBrailleText : list string) : string := join nl allBrailleText.

Definition _translateArgs (keywords : Keywords) : PyVal * PyVal :=
  let inPlace := default (VBool false) (keywords !! "inPlace") in
  let debug := default (VBool false) (keywords !! "debug") in
  (inPlace, debug).

Section Translate.
Context (E : External).

Definition partToBraille (music21Part : loc) (keywords : Keywords) : M string :=
  let '(inPlace, debug) := _translateArgs keywords in
  partToTranscribe ←
    (if negb (truthy inPlace) then makeNotation E music21Part else mret music21Part);
  allSegments ← findSegments E partToTranscribe keywords;
  allBrailleText ←
    for_append allSegments
      (λ brailleSegment,
         transcription ← transcribe E brailleSegment;
         if negb (truthy debug) then mret transcription
         else segment_str E brailleSegment) [];
  mret (join_lines allBrailleText).

Definition keyboardPartsToBraille (music21PartStaffUpper music21PartStaffLower : loc)
    (keywords : Keywords) : M string :=
  let '(inPlace, debug) := _translateArgs keywords in
  upperPartToTranscribe ←
    (if negb (truthy inPlace) then makeNotation E music21PartStaffUpper
     else mret music21PartStaffUpper);
  lowerPartToTranscribe ←
    (if negb (truthy inPlace) then makeNotation E music21PartStaffLower
     else mret music21PartStaffLower);
  rhSegments ← findSegments E upperPartToTranscribe keywords;
  lhSegments ← findSegments E lowerPartToTranscribe keywords;
  allBrailleText ←
    for_append (zip rhSegments lhSegments)
      (λ '(rhSegment, lhSegment),
         bg ← BrailleGrandSegment E rhSegment lhSegment;
         if negb (truthy debug) then transcription E bg
         else grand_str E bg) [];
  mret (join_lines allBrailleText).

Definition measureToBraille (music21Measure : loc) (keywords : Keywords) : M string :=
  let '(inPlace, unused_debug) := _translateArgs keywords in
  let keywords :=
    match keywords !! "showHeading" with
    | None => <["showHeading" := VBool false]> keywords
    | Some _ => keywords
    end in
  let keywords :=
    match keywords !! "showFirstMeasureNumber" with
    | None => <["showFirstMeasureNumber" := VBool false]> keywords
    | Some _ => keywords
    end in
  measureToTranscribe ←
    (if negb (truthy inPlace) then makeNotation E music21Measure else mret music21Measure);
  music21Part ← construct Part [measureToTranscribe];
  partToBraille music21Part (<["inPlace" := VBool true]> keywords).

Definition scoreToBraille (music21Score : loc) (keywords : Keywords) : M string :=
  metadataObjects ← getElementsByClass music21Score Metadata;
  allBrailleLines ← for_append metadataObjects metadataToString [];
  parts ← getElementsByClass music21Score Part;
  allBrailleLines ← for_append parts (λ p, partToBraille p keywords) allBrailleLines;
  mret (join nl allBrailleLines).

Definition opusToBraille (music21Opus : loc) (keywords : Keywords) : M string :=
  scores ← getElementsByClass music21Opus Score;
  allBrailleLines ← for_append scores (λ score, scoreToBraille score keywords) [];
  mret (join (nl ++ nl) allBrailleLines).

Definition streamToBraille (music21Stream : loc) (keywords : Keywords) : M string :=
  isPart ← isinstance music21Stream Part;
  isTiny ← isinstance music21Stream TinyNotationStream;
  if isPart || isTiny then partToBraille music21Stream keywords
  else (
    isMeasure ← isinstance music21Stream Measure;
    if (isMeasure : bool) then measureToBraille music21Stream keywords
    else (
      keyboardParts ← getElementsByClass music21Stream PartStaff;
      if bool_decide (length keyboardParts = 2) then
        match keyboardParts !! 0, keyboardParts !! 1 with
        | Some upper, Some lower => keyboardPartsToBraille upper lower keywords
        | _, _ => raise (ExternalException "IndexError")
        end
      else (
        isScore ← isinstance music21Stream Score;
        if (isScore : bool) then scoreToBraille music21Stream keywords
        else (
          isOpus ← isinstance music21Stream Opus;
          if (isOpus : bool) then opusToBraille music21Stream keywords
          else raise (BrailleTranslateException "Stream cannot be translated to Braille.")
        ) : M string
      ) : M string
    ) : M string
  ) : M string.

Definition objectToBraille (music21Obj : loc) (keywords : Keywords) : M string :=
  isStream ← isinstance music21Obj Stream;
  if (isStream : bool) then streamToBraille music21Obj keywords
  else (
    music21Measure ← construct Measure [music21Obj];
    measureToBraille music21Measure (<["inPlace" := VBool true]> keywords)
  ) : M string.

End Translate.

(** * Notions used in the statements *)

(** ** Runs of a loop *)

(** The runs of [f] on the items of [xs], in order, each started in the store
    left by the one before; all of them return. *)
Inductive runs {X} (f : X → M string) : list X → Heap → list string → Heap → Prop :=
| runs_nil h : runs f [] h [] h
| runs_cons x xs h t h1 ts h2 :
    f x h = (Ok t, h1) → runs f xs h1 ts h2 → runs f (x :: xs) h (t :: ts) h2.

(** The runs of [f] on the items of [xs] up to the first one that raises. *)
Inductive runs_raise {X} (f : X → M string) : list X → Heap → Exn → Heap → Prop :=
| runs_raise_here x xs h e h1 :
    f x h = (Raise e, h1) → runs_raise f (x :: xs) h e h1
| runs_raise_later x xs h t h1 e h2 :
    f x h = (Ok t, h1) → runs_raise f xs h1 e h2 → runs_raise f (x :: xs) h e h2.

(** ** Metadata summary lines *)

Fixpoint string_forallb (p : ascii → bool) (s : string) : bool :=
  match s with
  | "" => true
  | String c s' => p c && string_forallb p s'
  end.

Fixpoint string_map (f : ascii → ascii) (s : string) : string :=
  match s with
  | "" => ""
  | String c s' => String (f c) (string_map f s')
  end.

Definition is_letter (c : ascii) : bool := is_upper c || is_lower c.

(** A key word: a non-empty run of ASCII letters. *)
Definition is_word (w : string) : Prop :=
  w ≠ "" ∧ string_forallb is_letter w = true.

(** A word with its first letter capital and the others small. *)
Definition capitalize (w : string) : string :=
  match w with
  | "" => ""
  | String c w' => String (to_upper c) (string_map to_lower w')
  end.

(** The summary line of a work identifier, in the words of the
    specification: the key words in title case, [": "], the value. *)
Definition summary_line (key value : string) : string :=
  join " " (map capitalize (findall key)) ++ ": " ++ value.

(** One summary line for each key whose value is not [None]. *)
Definition summary_lines (ids : list (string * option string)) : list string :=
  omap (λ '(key, value), summary_line key <$> value) ids.

(** The text [metadataToString] returns for the work identifiers [ids]. *)
Definition metadata_text (ids : list (string * option string)) : string :=
  join nl (sorted (workId_loop ids [])).

(** What [metadataToString] promises: the summary lines, one for each key
    whose value is not [None], in lexicographic order, one per line. *)
Definition is_summary (ids : list (string * option string)) (text : string) : Prop :=
  ∃ lines, text = join nl lines ∧ Sorted string_le lines ∧ lines ≡ₚ summary_lines ids.

(** ** Renotation and the transcription of a notated part *)

(** The stream that is transcribed for [s]: [s] itself when [inPlace] is
    true, the stream [makeNotation] returns for it otherwise. *)
Definition renotated (E : External) (keywords : Keywords) (s : loc) : M loc :=
  if negb (truthy (_translateArgs keywords).1) then makeNotation E s else mret s.

(** The text of one segment: its transcription, or its [str] under [debug]
    (the segment is transcribed in both cases). *)
Definition segment_text (E : External) (keywords : Keywords) (seg : Segment E) : M string :=
  transcription ← transcribe E seg;
  if negb (truthy (_translateArgs keywords).2) then mret transcription
  else segment_str E seg.

(** The text of one pair of segments, the upper one given first. *)
Definition grand_segment_text (E : External) (keywords : Keywords)
    (pair : Segment E * Segment E) : M string :=
  bg ← BrailleGrandSegment E pair.1 pair.2;
  if negb (truthy (_translateArgs keywords).2) then transcription E bg
  else grand_str E bg.

(** The transcription of a part as it is: its segments are found and their
    texts joined by newlines. *)
Definition transcribe_notated (E : External) (p : loc) (keywords : Keywords) : M string :=
  allSegments ← findSegments E p keywords;
  allBrailleText ← mapM (segment_text E keywords) allSegments;
  mret (join nl allBrailleText).

(** ** A lone measure *)

(** [if not name in keywords: keywords[name] = False] *)
Definition filled (name : string) (keywords : Keywords) : Keywords :=
  match keywords !! name with
  | None => <[name := VBool false]> keywords
  | Some _ => keywords
  end.

(** The keywords [measureToBraille] hands on. *)
Definition measure_keywords (keywords : Keywords) : Keywords :=
  <["inPlace" := VBool true]>
    (filled "showFirstMeasureNumber" (filled "showHeading" keywords)).

(** ** Transcribing a copy *)

(** The same external functions with another [makeNotation]. *)
Definition with_makeNotation (E : External) (mn : loc → M loc) : External :=
  {| Segment := Segment E;
     GrandSegment := GrandSegment E;
     makeNotation := mn;
     findSegments := findSegments E;
     transcribe := transcribe E;
     segment_str := segment_str E;
     BrailleGrandSegment := BrailleGrandSegment E;
     transcription := transcription E;
     grand_str := grand_str E |}.

(** The objects in [owned] are the same in [h'] as in [h]. *)
Definition preserves (owned : gset loc) (h h' : Heap) : Prop :=
  ∀ l, l ∈ owned → h' !! l = h !! l.

(** Modelled from the spec: what the specification says of the renotation
    pass, whose code is outside [translate.py] ("requests a renotated copy
    ...; this call is idempotent and side-effect-free"): [makeNotation]
    changes none of the objects that exist when it is called, and the stream
    it returns is not one of them. *)
Definition renotation_copies (E : External) (owned : gset loc) : Prop :=
  ∀ s h r h', owned ⊆ dom h → makeNotation E s h = (r, h') →
    preserves owned h h' ∧ ∀ copy, r = Ok copy → copy ∉ owned.

(** Modelled from the spec: what the specification says of segments ("the
    Segmenter creates and owns Segments"; the encoding state is "local to one
    Segment's transcription"): rendering a segment changes at most the stream
    the segment was found in. *)
Definition segment_is_local (E : External) (owned : gset loc) (seg : Segment E) : Prop :=
  ∀ h, owned ⊆ dom h →
    preserves owned h (transcribe E seg h).2 ∧ preserves owned h (segment_str E seg h).2.

(** Modelled from the spec: segmentation of a stream changes at most that
    stream, and the segments it returns are segments of that stream. *)
Definition segmentation_is_local (E : External) (owned : gset loc) : Prop :=
  ∀ p keywords h r h', owned ⊆ dom h → p ∉ owned →
    findSegments E p keywords h = (r, h') →
    preserves owned h h' ∧ ∀ segs, r = Ok segs → Forall (segment_is_local E owned) segs.

(** ** The transcription of a Part as a relation

    For the determinism of the transcription the external functions are
    relations between a store and an outcome, so that an implementation with
    several possible outcomes (an order of iteration, a clock, a random
    choice) is not excluded by the model, and [partToBraille] is read as the
    relation between a store and the outcomes it can have. *)

Definition MR (A : Type) : Type := Heap → Result A * Heap → Prop.

Definition retR {A} (a : A) : MR A := λ h out, out = (Ok a, h).

Definition bindR {A B} (m : MR A) (k : A → MR B) : MR B := λ h out,
  ∃ r h1, m h (r, h1) ∧
    match r with
    | Ok a => k a h1 out
    | Raise e => out = (Raise e, h1)
    end.

Record ExternalR := MkExternalR {
  SegmentR : Type;
  makeNotationR : loc → MR loc;
  findSegmentsR : loc → Keywords → MR (list SegmentR);
  transcribeR : SegmentR → MR string;
  segment_strR : SegmentR → MR string
}.

Fixpoint for_appendR {X} (xs : list X) (body : X → MR string)
    (allBrailleLines : list string) : MR (list string) :=
  match xs with
  | [] => retR allBrailleLines
  | x :: xs' =>
      bindR (body x) (λ line, for_appendR xs' body (allBrailleLines ++ [line]))
  end.

Definition partToBrailleR (R : ExternalR) (music21Part : loc) (keywords : Keywords)
  : MR string :=
  let '(inPlace, debug) := _translateArgs keywords in
  bindR (if negb (truthy inPlace) then makeNotationR R music21Part else retR music21Part)
    (λ partToTranscribe,
  bindR (findSegmentsR R partToTranscribe keywords) (λ allSegments,
  bindR (for_appendR allSegments
           (λ brailleSegment,
              bindR (transcribeR R brailleSegment) (λ transcription,
                if negb (truthy debug) then retR transcription
                else segment_strR R brailleSegment)) [])
    (λ allBrailleText, retR (join_lines allBrailleText)))).

(** A relation with at most one outcome from each store. *)
Definition functional {A} (m : MR A) : Prop :=
  ∀ h out1 out2, m h out1 → m h out2 → out1 = out2.

Definition deterministic (R : ExternalR) : Prop :=
  (∀ s, functional (makeNotationR R s)) ∧
  (∀ p keywords, functional (findSegmentsR R p keywords)) ∧
  (∀ seg, functional (transcribeR R seg)) ∧
  (∀ seg, functional (segment_strR R seg)).

(** The relations of an implementation by functions. *)
Definition graph {A} (m : M A) : MR A := λ h out, m h = out.

Definition graph_of (E : External) : ExternalR :=
  {| SegmentR := Segment E;
     makeNotationR := λ s, graph (makeNotation E s);
     findSegmentsR := λ p keywords, graph (findSegments E p keywords);
     transcribeR := λ seg, graph (transcribe E seg);
     segment_strR := λ seg, graph (segment_str E seg) |}.

(** External functions of which one, the transcription of a segment, has two
    possible outcomes. *)
Definition two_faced : ExternalR :=
  {| SegmentR := unit;
     makeNotationR := λ s, retR s;
     findSegmentsR := λ p keywords, retR [tt];
     transcribeR := λ seg h out, out = (Ok "a", h) ∨ out = (Ok "b", h);
     segment_strR := λ seg, retR "" |}.

(** The two readings of [partToBraille] agree: over the graphs of an
    implementation by functions, the relation holds of the outcome the
    function computes, and of it only. *)
Definition agrees {A} (mR : MR A) (m : M A) : Prop :=
  ∀ h out, mR h out ↔ m h = out.

(** ** Lines of a text *)

(** [s.split("\n")]: the lines of a text. *)
Fixpoint lines_of (s : string) : list string :=
  match s with
  | "" => [""]
  | String c s' =>
      if Ascii.eqb c "010" then "" :: lines_of s'
      else match lines_of s' with
           | line :: rest => String c line :: rest
           | [] => [String c ""]
           end
  end.

Definition newline_free (s : string) : Prop :=
  string_forallb (λ c, negb (Ascii.eqb c "010")) s = true.

(** The events of the measure of the docstring of [objectToBraille], with the
    time signature that opens the measure and the barline that ends it. *)
Definition sample_events : list MusicalEvent :=
  [TimeSignature 3 4;
   Note (MkPitch "C" 4 None) (MkDuration Quarter 0);
   Note (MkPitch "D" 4 None) (MkDuration Sixteenth 0);
   Note (MkPitch "E" 4 None) (MkDuration Sixteenth 0);
   Note (MkPitch "F" 4 None) (MkDuration Sixteenth 0);
   Note (MkPitch "G" 4 (Some Sharp)) (MkDuration Sixteenth 0);
   Rest (MkDuration Quarter 0);
   Note (MkPitch "E" 3 None) (MkDuration Half 1);
   Barline FinalBar].

(** * Implementations of the external functions *)

(** ** A small implementation of the external functions

    One segment per measure; the text of a segment is made of the symbols of
    the dynamics the measure holds, so that a result shows which objects were
    transcribed, and a grand segment shows the upper text above the lower
    one.  Renotation returns a copy of the stream and changes nothing else. *)
Module Mock.

Definition copy (s : loc) : M loc := λ h,
  match h !! s with
  | Some o => let l := fresh (dom h) in (Ok l, <[l := o]> h)
  | None => (Raise (ExternalException "AttributeError"), h)
  end.

Definition segments (p : loc) (keywords : Keywords) : M (list loc) := λ h,
  (Ok (contained h p Measure), h).

Definition dynamic_symbol (h : Heap) (l : loc) : option string :=
  o ← h !! l;
  e ← oevent o;
  match e with Dynamic symbol => Some symbol | _ => None end.

Definition text_of (h : Heap) (seg : loc) : string :=
  join "" (omap (dynamic_symbol h) (elements_of h seg)).

Definition text (seg : loc) : M string := λ h, (Ok (text_of h seg), h).

Definition debug_text (seg : loc) : M string := λ h,
  (Ok ("<" ++ text_of h seg ++ ">"), h).

Definition grand (rh lh : loc) : M (loc * loc) := mret (rh, lh).

Definition grand_text (bg : loc * loc) : M string := λ h,
  (Ok (text_of h bg.1 ++ nl ++ text_of h bg.2), h).

Definition grand_debug_text (bg : loc * loc) : M string := λ h,
  (Ok ("<" ++ text_of h bg.1 ++ nl ++ text_of h bg.2 ++ ">"), h).

Definition engine : External :=
  {| Segment := loc;
     GrandSegment := loc * loc;
     makeNotation := copy;
     findSegments := segments;
     transcribe := text;
     segment_str := debug_text;
     BrailleGrandSegment := grand;
     transcription := grand_text;
     grand_str := grand_debug_text |}.

(** A store from a list of objects, the first at location 0. *)
Definition store (objs : list Obj) : Heap := list_to_map (zip (seq 0 (length objs)) objs).

(** A Voice, a stream of no kind that can be transcribed. *)
Definition voice : Heap := store [newStream Voice []].

(** A TinyNotationStream holding one measure with a forte. *)
Definition tiny : Heap :=
  store [newStream TinyNotationStream [1]; newStream Measure [2]; newEvent (Dynamic "f")].

(** At 0, a Part holding two staves, each with one measure. *)
Definition part_of_staves : Heap :=
  store [newStream Part [1; 2];
         newStream PartStaff [3]; newStream PartStaff [4];
         newStream Measure [5]; newStream Measure [6];
         newEvent (Dynamic "f"); newEvent (Dynamic "p")].

(** At 0, a Score holding a Metadata object and two staves; the upper staff
    has two measures, the lower staff has one. *)
Definition uneven : Heap :=
  store [newStream Score [1; 2; 3];
         newMetadata [("title", Some "Study")];
         newStream PartStaff [4; 5]; newStream PartStaff [6];
         newStream Measure [7]; newStream Measure [8]; newStream Measure [9];
         newEvent (Dynamic "f"); newEvent (Dynamic "mf"); newEvent (Dynamic "p")].

End Mock.

(** ** The segment engine as the specification describes it

    [translate.py] hands the work to [music21.braille.segment], another
    module of music21.  The definitions of this module follow the
    specification of the Segmenter (§4.2), the Segment Transcriber (§4.3), the
    dynamics rule of the Symbol Encoder (§4.1) and the Grand-Staff Combiner
    (§4.4).  Braille signs are cells (dot patterns of the block U+2800); the
    signs themselves, which the specification does not list, are the fields of
    a [Table]. *)
Module Engine.

Abbreviation Cell := N.

(** The blank cell of music notation, U+2800. *)
Definition blank : Cell := 0%N.

(** UTF-8 of U+2800 + [c], for a pattern [c] of up to eight dots. *)
Definition render_cell (c : Cell) : string :=
  String (ascii_of_N 226)
    (String (ascii_of_N (160 + (c / 64) mod 4))
       (String (ascii_of_N (128 + c mod 64)) "")).

Definition render (cells : list Cell) : string := join "" (map render_cell cells).

(** Modelled from the spec: the signs of the Symbol Encoder (§4.1), which the
    specification names without listing them.  [encodeEvent] stands for the
    encoding of notes, chords and rests, which threads the encoding state;
    [token] is the readable token of a cell in a [debug] trace (§6). *)
Record Table := MkTable {
  EncodingState : Type;
  initialState : EncodingState;
  encodeEvent : EncodingState → MusicalEvent → list Cell * EncodingState;
  dynamicIntroducer : Cell;
  dynamicUnit : ascii → Cell;
  keySignatureGlyphs : Z → list Cell;
  timeSignatureGlyphs : nat → nat → list Cell;
  tempoGlyphs : option string → option nat → list Cell;
  measureNumberGlyphs : nat → list Cell;
  barlineGlyphs : BarStyle → list Cell;
  handGlyphs : string → list Cell;
  clefGlyphs : string → list Cell;
  token : Cell → string
}.

(** Modelled from the spec: a Segment (§3), for a segment that starts at the
    beginning of a measure: its events in order, the number of its first
    measure, the flags and the line length it was made with. *)
Record BrailleSegment := MkSegment {
  events : list MusicalEvent;
  startMeasureNumber : nat;
  showHeading : bool;
  showFirstMeasureNumber : bool;
  showClefSigns : bool;
  showHand : option string;
  maxLineLength : nat
}.

(** Modelled from the spec: the configuration surface (§6) with its defaults,
    for the options the segment records. *)
Definition option_flag (keywords : Keywords) (name : string) (default_value : bool) : bool :=
  truthy (default (VBool default_value) (keywords !! name)).

Definition option_maxLineLength (keywords : Keywords) : nat :=
  match keywords !! "maxLineLength" with
  | Some (VInt n) => Z.to_nat n
  | _ => 40
  end.

Definition option_showHand (keywords : Keywords) : option string :=
  match keywords !! "showHand" with
  | Some (VStr hand) =>
      if String.eqb hand "right" || String.eqb hand "left" then Some hand else None
  | _ => None
  end.

Definition events_of (h : Heap) (measure : loc) : list MusicalEvent :=
  omap (λ l, o ← h !! l; oevent o) (elements_of h measure).

(** Modelled from the spec: the Segmenter (§4.2) on a Part of at most one
    measure, the two edge cases the specification spells out: "an empty Part
    produces zero Segments" and a Part with a single measure "produces
    exactly one Segment", the first of the Part, which takes [showHeading] and
    [showFirstMeasureNumber] from the configuration; measures are numbered
    from 1.  Where to cut a longer Part depends on the encoded widths of its
    measures; such a Part is outside this model, and so are [segmentBreaks]
    and [dummyRestLength]. *)
Definition first_segment (evs : list MusicalEvent) (keywords : Keywords) : BrailleSegment :=
  {| events := evs;
     startMeasureNumber := 1;
     showHeading := option_flag keywords "showHeading" true;
     showFirstMeasureNumber := option_flag keywords "showFirstMeasureNumber" true;
     showClefSigns := option_flag keywords "showClefSigns" false;
     showHand := option_showHand keywords;
     maxLineLength := option_maxLineLength keywords |}.

Definition findSegments (p : loc) (keywords : Keywords) : M (list BrailleSegment) := λ h,
  match contained h p Measure with
  | [] => (Ok [], h)
  | [measure] => (Ok [first_segment (events_of h measure) keywords], h)
  | _ => (Raise (ExternalException "outside the model"), h)
  end.

Section Transcriber.
Context (T : Table).

(** Modelled from the spec: the Symbol Encoder is called "once per
    MusicalEvent in offset order", threading one encoding state (§4.3).  A
    dynamic is "one encoded unit per character of the dynamic's textual
    name", after the introducer (§4.1, §8).  Clefs show only under
    [showClefSigns]; the barline is left to the end of the segment. *)
Fixpoint encode (clefs : bool) (st : EncodingState T) (evs : list MusicalEvent)
  : list Cell :=
  match evs with
  | [] => []
  | ev :: evs' =>
      match ev with
      | Dynamic symbol =>
          dynamicIntroducer T :: map (dynamicUnit T) (list_ascii_of_string symbol)
          ++ encode clefs st evs'
      | KeySignature fifths => keySignatureGlyphs T fifths ++ encode clefs st evs'
      | TimeSignature n d => timeSignatureGlyphs T n d ++ encode clefs st evs'
      | TempoMark text metronome => tempoGlyphs T text metronome ++ encode clefs st evs'
      | Clef kind => (if clefs then clefGlyphs T kind else []) ++ encode clefs st evs'
      | Barline _ => encode clefs st evs'
      | _ => let '(cells, st') := encodeEvent T st ev in cells ++ encode clefs st' evs'
      end
  end.

Definition is_heading_event (ev : MusicalEvent) : bool :=
  match ev with
  | KeySignature _ | TimeSignature _ _ | TempoMark _ _ => true
  | _ => false
  end.

Definition keySignature_of (evs : list MusicalEvent) : option Z :=
  head (omap (λ ev, match ev with KeySignature fifths => Some fifths | _ => None end) evs).

Definition timeSignature_of (evs : list MusicalEvent) : option (nat * nat) :=
  head (omap (λ ev, match ev with TimeSignature n d => Some (n, d) | _ => None end) evs).

Definition tempo_of (evs : list MusicalEvent) : option (option string * option nat) :=
  head (omap (λ ev, match ev with TempoMark text m => Some (text, m) | _ => None end) evs).

(** The style of the last barline of the segment. *)
Definition barline_of (evs : list MusicalEvent) : option BarStyle :=
  last (omap (λ ev, match ev with Barline style => Some style | _ => None end) evs).

(** Modelled from the spec: the heading holds, "in fixed order: key
    signature, time signature, tempo text, metronome mark — omitting any that
    are absent" (§4.3). *)
Definition heading_cells (evs : list MusicalEvent) : list Cell :=
  from_option (keySignatureGlyphs T) [] (keySignature_of evs)
  ++ from_option (λ '(n, d), timeSignatureGlyphs T n d) [] (timeSignature_of evs)
  ++ from_option (λ '(text, m), tempoGlyphs T text m) [] (tempo_of evs).

(** Modelled from the spec: the heading is centered "via leading padding"
    with the blank cell (§4.3); the line it is centered in is the braille
    line of [maxLineLength] cells. *)
Definition centered (width : nat) (cells : list Cell) : list Cell :=
  replicate ((width - length cells) / 2) blank ++ cells.

(** Modelled from the spec: the music of a segment (§4.3): the number of the
    first measure under [showFirstMeasureNumber], the hand sign under
    [showHand], the events in order, and at the end the barline sign "per the
    last Barline event's style".  What the heading shows is not repeated in
    the music; without a heading the signatures stand in the music, as in the
    docstring of [measureToBraille]. *)
Definition body_cells (seg : BrailleSegment) : list Cell :=
  (if showFirstMeasureNumber seg then measureNumberGlyphs T (startMeasureNumber seg) else [])
  ++ from_option (handGlyphs T) [] (showHand seg)
  ++ encode (showClefSigns seg) (initialState T)
       (if showHeading seg
        then filter (λ ev, is_heading_event ev = false) (events seg)
        else events seg)
  ++ from_option (barlineGlyphs T) [] (barline_of (events seg)).

(** Modelled from the spec: the lines of a segment (§4.3): the heading line
    under [showHeading], then the music.  A segment of one measure is one
    line of music, which "is allowed to overflow" (§4.2). *)
Definition segment_lines (seg : BrailleSegment) : list (list Cell) :=
  (if showHeading seg
   then [centered (maxLineLength seg) (heading_cells (events seg))]
   else [])
  ++ [body_cells seg].

(** Modelled from the spec: [seg.transcribe()], the lines as braille text
    "joined by a line-separator" (§4.3). *)
Definition transcribe (seg : BrailleSegment) : M string :=
  mret (join nl (map render (segment_lines seg))).

(** Modelled from the spec: [str(seg)], the [debug] trace, "one readable
    token per braille unit" (§6). *)
Definition segment_str (seg : BrailleSegment) : M string :=
  mret (join nl (map (λ line, join " " (map (token T) line)) (segment_lines seg))).

(** Modelled from the spec: the Grand-Staff Combiner (§4.4): "upper line(s)
    first, then lower line(s)", each staff under its own heading rules, the
    hand sign "always emitted" for each half (§4.3).  [transcription] and
    [grand_str] are the braille text and the [debug] trace of these lines. *)
Definition grand_lines (bg : BrailleSegment * BrailleSegment) : list (list Cell) :=
  let with_hand (hand : string) (seg : BrailleSegment) :=
    {| events := events seg;
       startMeasureNumber := startMeasureNumber seg;
       showHeading := showHeading seg;
       showFirstMeasureNumber := showFirstMeasureNumber seg;
       showClefSigns := showClefSigns seg;
       showHand := Some hand;
       maxLineLength := maxLineLength seg |} in
  segment_lines (with_hand "right" bg.1) ++ segment_lines (with_hand "left" bg.2).

Definition BrailleGrandSegment (rh lh : BrailleSegment)
  : M (BrailleSegment * BrailleSegment) := mret (rh, lh).

Definition transcription (bg : BrailleSegment * BrailleSegment) : M string :=
  mret (join nl (map render (grand_lines bg))).

Definition grand_str (bg : BrailleSegment * BrailleSegment) : M string :=
  mret (join nl (map (λ line, join " " (map (token T) line)) (grand_lines bg))).

(** Modelled from the spec: renotation (§6) "requests a renotated copy" of
    an input that is already "grouped into well-formed measures": a new
    stream with the elements of the old one; nothing else changes. *)
Definition makeNotation (s : loc) : M loc := λ h,
  match h !! s with
  | Some o => let l := fresh (dom h) in (Ok l, <[l := o]> h)
  | None => (Raise (ExternalException "AttributeError"), h)
  end.

End Transcriber.
End Engine.

(** The external functions as the specification describes them, for a table
    of signs. *)
Definition spec_engine (T : Engine.Table) : External :=
  {| Segment := Engine.BrailleSegment;
     GrandSegment := Engine.BrailleSegment * Engine.BrailleSegment;
     makeNotation := Engine.makeNotation;
     findSegments := Engine.findSegments;
     transcribe := Engine.transcribe T;
     segment_str := Engine.segment_str T;
     BrailleGrandSegment := Engine.BrailleGrandSegment;
     transcription := Engine.transcription T;
     grand_str := Engine.grand_str T |}.

(** A table of signs: those the docstrings of [translate.py] show (numbers,
    time signatures, the final barline, the word sign and the letter of the
    forte, the shapes of the notes), completed in the same way. *)
Module Signs.

Definition upper_digit (c : ascii) : Engine.Cell :=
  match c with
  | "1" => 1 | "2" => 3 | "3" => 9 | "4" => 25 | "5" => 17
  | "6" => 11 | "7" => 27 | "8" => 19 | "9" => 10 | _ => 26
  end%char%N.

Definition lower_digit (c : ascii) : Engine.Cell :=
  match c with
  | "1" => 2 | "2" => 6 | "3" => 18 | "4" => 50 | "5" => 34
  | "6" => 22 | "7" => 54 | "8" => 38 | "9" => 20 | _ => 52
  end%char%N.

Definition numberSign : Engine.Cell := 60%N.

Definition digits (n : nat) : list ascii := list_ascii_of_string (pretty n).

Definition letter (c : ascii) : Engine.Cell :=
  match c with
  | "f" => 11 | "m" => 13 | "p" => 15 | "s" => 14 | "z" => 53 | _ => 0
  end%char%N.

Definition step_shape (step : string) : N :=
  (if String.eqb step "C" then 25 else if String.eqb step "D" then 17
   else if String.eqb step "E" then 11 else if String.eqb step "F" then 27
   else if String.eqb step "G" then 19 else if String.eqb step "A" then 10
   else 26)%N.

Definition value_dots (d : DurationType) : N :=
  match d with
  | Whole | Sixteenth => 36
  | Half => 4
  | Quarter => 32
  | Eighth => 0
  end%N.

Definition rest_shape (d : DurationType) : Engine.Cell :=
  match d with
  | Whole | Sixteenth => 13
  | Half => 37
  | Quarter => 39
  | Eighth => 45
  end%N.

Definition accidental_sign (a : option Accidental) : list Engine.Cell :=
  match a with
  | Some Sharp => [41]
  | Some Flat => [35]
  | Some Natural => [33]
  | None => []
  end%N.

Definition note_cells (ev : MusicalEvent) : list Engine.Cell :=
  match ev with
  | Note p d =>
      accidental_sign (accidental p)
      ++ [(step_shape (step p) + value_dots (dtype d))%N] ++ replicate (dots d) 4%N
  | Rest d => [rest_shape (dtype d)] ++ replicate (dots d) 4%N
  | _ => []
  end.

Definition table : Engine.Table :=
  {| Engine.EncodingState := unit;
     Engine.initialState := tt;
     Engine.encodeEvent := λ st ev, (note_cells ev, st);
     Engine.dynamicIntroducer := 28%N;
     Engine.dynamicUnit := letter;
     Engine.keySignatureGlyphs := λ fifths,
       replicate (Z.abs_nat fifths) (if (0 <=? fifths)%Z then 41%N else 35%N);
     Engine.timeSignatureGlyphs := λ n d,
       numberSign :: map upper_digit (digits n) ++ map lower_digit (digits d);
     Engine.tempoGlyphs := λ _ _, [];
     Engine.measureNumberGlyphs := λ n, numberSign :: map upper_digit (digits n);
     Engine.barlineGlyphs := λ style,
       match style with
       | FinalBar => [35; 5]
       | DoubleBar => [35; 5; 4]
       | RegularBar => []
       end%N;
     Engine.handGlyphs := λ hand,
       (if String.eqb hand "right" then [40; 28] else [56; 28])%N;
     Engine.clefGlyphs := λ _, [];
     Engine.token := λ c, pretty c |}.

(** The dynamic of the docstring of [objectToBraille]. *)
Definition fff : Heap := Mock.store [newEvent (Dynamic "fff")].

(** A Part of one measure in 3/4: C4 quarter, D4 E4 F4 G#4 sixteenths, a
    quarter rest, E3 dotted half, and the final barline. *)
Definition sample : Heap :=
  Mock.store
    (newStream Part [1]
     :: newStream Measure (seq 2 (length sample_events))
     :: map newEvent sample_events).

End Signs.

(** * The caller in [webapps/templates.py] *)

(** [templates.braille]: the page and its content type.  [encode('utf-8')]
    of a text is that text, texts being held in UTF-8. *)
Definition braille (E : External) (outputStream : loc) : M (string * string) :=
  brailleText ← objectToBraille E outputStream ∅;
  let brailleOutput := "<html><body><pre>" ++ brailleText ++ "</pre></body></html>" in
  mret (brailleOutput, "text/html; charset=utf-8").

(** * Further notions used in the statements *)

(** The same external functions with other [str] functions. *)
Definition with_str (E : External) (ss : Segment E → M string)
    (gs : GrandSegment E → M string) : External :=
  {| Segment := Segment E;
     GrandSegment := GrandSegment E;
     makeNotation := makeNotation E;
     findSegments := findSegments E;
     transcribe := transcribe E;
     segment_str := ss;
     BrailleGrandSegment := BrailleGrandSegment E;
     transcription := transcription E;
     grand_str := gs |}.

(** The same external functions with another [transcription] attribute of
    grand segments. *)
Definition with_transcription (E : External) (tr : GrandSegment E → M string)
  : External :=
  {| Segment := Segment E;
     GrandSegment := GrandSegment E;
     makeNotation := makeNotation E;
     findSegments := findSegments E;
     transcribe := transcribe E;
     segment_str := segment_str E;
     BrailleGrandSegment := BrailleGrandSegment E;
     transcription := tr;
     grand_str := grand_str E |}.

(** The same external functions with other grand segments. *)
Definition with_keyboard (E : External) (G : Type)
    (bgs : Segment E → Segment E → M G) (tr gs : G → M string) : External :=
  {| Segment := Segment E;
     GrandSegment := G;
     makeNotation := makeNotation E;
     findSegments := findSegments E;
     transcribe := transcribe E;
     segment_str := segment_str E;
     BrailleGrandSegment := bgs;
     transcription := tr;
     grand_str := gs |}.

(** A [makeNotation] that always raises. *)
Definition no_makeNotation : loc → M loc :=
  λ s, raise (ExternalException "makeNotation").

(** A [str] that always raises. *)
Definition no_str {A} : A → M string := λ x, raise (ExternalException "str").

(** The external functions of [Mock.engine] with a [transcribe] that raises
    on every segment. *)
Definition failing_engine : External :=
  {| Segment := loc;
     GrandSegment := loc * loc;
     makeNotation := Mock.copy;
     findSegments := Mock.segments;
     transcribe := λ seg, raise (ExternalException "BrailleSegmentException");
     segment_str := Mock.debug_text;
     BrailleGrandSegment := Mock.grand;
     transcription := Mock.grand_text;
     grand_str := Mock.grand_debug_text |}.

(** ** The objects of the caller *)

(** A computation that changes none of the objects in [owned], whether it
    returns or raises, and whose results satisfy [Q]. *)
Definition keeps {A} (owned : gset loc) (m : M A) (Q : A → Prop) : Prop :=
  ∀ h, owned ⊆ dom h →
    preserves owned h (m h).2 ∧ ∀ a, (m h).1 = Ok a → Q a.

(** Modelled from the spec: what the specification says of the transcription
    ("a pure, deterministic pass over an immutable input timeline"; "no
    shared mutable resource outlives one top-level call") for the grand
    segments of [segment.py]: building a grand segment from two segments that
    are confined to their streams, and rendering it, changes none of the
    other objects. *)
Definition grand_segments_are_local (E : External) (owned : gset loc) : Prop :=
  ∀ rh lh h r h', owned ⊆ dom h →
    segment_is_local E owned rh → segment_is_local E owned lh →
    BrailleGrandSegment E rh lh h = (r, h') →
    preserves owned h h' ∧
    ∀ bg, r = Ok bg → ∀ h0, owned ⊆ dom h0 →
      preserves owned h0 (transcription E bg h0).2 ∧
      preserves owned h0 (grand_str E bg h0).2.

(** ** Streams that can be transcribed *)

(** The tests of [streamToBraille], in its order: a Part, a
    TinyNotationStream, a Measure, a stream holding exactly two PartStaff
    elements, a Score, an Opus. *)
Definition supported (h : Heap) (music21Stream : loc) : bool :=
  is_instance h Part music21Stream || is_instance h TinyNotationStream music21Stream
  || is_instance h Measure music21Stream
  || bool_decide (length (contained h music21Stream PartStaff) = 2)
  || is_instance h Score music21Stream || is_instance h Opus music21Stream.

(** A computation that returns from every store. *)
Definition returns {A} (m : M A) : Prop := ∀ h, ∃ a h', m h = (Ok a, h').

(** External functions that return on every input. *)
Definition engine_returns (E : External) : Prop :=
  (∀ s, returns (makeNotation E s)) ∧
  (∀ p keywords, returns (findSegments E p keywords)) ∧
  (∀ seg, returns (transcribe E seg)) ∧
  (∀ seg, returns (segment_str E seg)) ∧
  (∀ rh lh, returns (BrailleGrandSegment E rh lh)) ∧
  (∀ bg, returns (transcription E bg)) ∧
  (∀ bg, returns (grand_str E bg)).

(** At 0, an Opus holding the Score of [Mock.uneven], moved up by one
    location. *)
Definition opus_of_uneven : Heap :=
  Mock.store [newStream Opus [1];
              newStream Score [2; 3; 4];
              newMetadata [("title", Some "Study")];
              newStream PartStaff [5; 6]; newStream PartStaff [7];
              newStream Measure [8]; newStream Measure [9]; newStream Measure [10];
              newEvent (Dynamic "f"); newEvent (Dynamic "mf"); newEvent (Dynamic "p")].

(** Two Metadata objects with the same work identifiers in two orders. *)
Definition two_orders : Heap :=
  Mock.store [newMetadata [("title", Some "Study"); ("opusNumber", Some "3");
                           ("composer", None)];
              newMetadata [("composer", None); ("title", Some "Study");
                           ("opusNumber", Some "3")]].

(** A Metadata object none of whose work identifiers has a value, as
    [Metadata()] makes it. *)
Definition blank (ids : list (string * option string)) : Prop :=
  Forall (λ id, id.2 = None) ids.

(** At 0, a Score holding a blank Metadata object and a Part of one
    measure. *)
Definition blank_score : Heap :=
  Mock.store [newStream Score [1; 2];
              newMetadata [("title", None); ("composer", None)];
              newStream Part [3]; newStream Measure [4]; newEvent (Dynamic "f")].

(** At 0 a Score and at 1 an Opus, both empty. *)
Definition empty_streams : Heap :=
  Mock.store [newStream Score []; newStream Opus []].

(** ** Keys in camel case *)

(** A word in small letters. *)
Definition is_small_word (w : string) : Prop :=
  w ≠ "" ∧ string_forallb is_lower w = true.

(** A word that starts with one capital and goes on in small letters. *)
Definition is_capital_word (w : string) : Prop :=
  ∃ c r, w = String c r ∧ is_upper c = true ∧ is_small_word r.

(** The key made of a first word and the words that follow it, written
    without a separator, as in [movementName]. *)
Definition camel (first : string) (others : list string) : string :=
  first ++ join "" others.

(** A text that is empty or starts with a character that fails [p]. *)
Definition stops (p : ascii → bool) (s : string) : Prop :=
  match s with
  | "" => True
  | String c _ => p c = false
  end.

(** * Properties *)

(** ** The monad and the loops *)

Lemma bind_unfold {A B} (m : M A) (f : A → M B) (h : Heap) :
  (m ≫= f) h =
  match m h with
  | (Ok a, h') => f a h'
  | (Raise e, h') => (Raise e, h')
  end.
Proof. reflexivity. Qed.

Lemma bind_ok {A B} (m : M A) (f : A → M B) h a h' :
  m h = (Ok a, h') → (m ≫= f) h = f a h'.
Proof. intros Hm. rewrite bind_unfold, Hm. reflexivity. Qed.

Lemma bind_raise {A B} (m : M A) (f : A → M B) h e h' :
  m h = (Raise e, h') → (m ≫= f) h = (Raise e, h').
Proof. intros Hm. rewrite bind_unfold, Hm. reflexivity. Qed.

Lemma ret_unfold {A} (a : A) (h : Heap) : (mret a : M A) h = (Ok a, h).
Proof. reflexivity. Qed.

Lemma mapM_unfold_cons {X} (f : X → M string) x xs h :
  mapM f (x :: xs) h =
  match f x h with
  | (Ok t, h1) =>
      match mapM f xs h1 with
      | (Ok ts, h2) => (Ok (t :: ts), h2)
      | (Raise e, h2) => (Raise e, h2)
      end
  | (Raise e, h1) => (Raise e, h1)
  end.
Proof.
  simpl. rewrite bind_unfold. destruct (f x h) as [[t|e] h1]; [|reflexivity].
  rewrite bind_unfold. destruct (mapM f xs h1) as [[ts|e] h2]; reflexivity.
Qed.

Lemma mapM_runs {X} (f : X → M string) xs h ts h' :
  mapM f xs h = (Ok ts, h') ↔ runs f xs h ts h'.
Proof.
  revert h ts h'. induction xs as [|x xs IH]; intros h ts h'.
  - split.
    + intros [= <- <-]. constructor.
    + inversion 1; subst. reflexivity.
  - rewrite mapM_unfold_cons. split.
    + destruct (f x h) as [[t|e] h1] eqn:Hx; [|discriminate].
      destruct (mapM f xs h1) as [[ts'|e] h2] eqn:Hxs; [|discriminate].
      intros [= <- <-]. econstructor; [exact Hx|]. apply IH, Hxs.
    + inversion 1 as [|? ? ? t h1 ts' h2 Hx Hxs]; subst.
      rewrite Hx. apply IH in Hxs. rewrite Hxs. reflexivity.
Qed.

Lemma mapM_runs_raise {X} (f : X → M string) xs h e h' :
  mapM f xs h = (Raise e, h') ↔ runs_raise f xs h e h'.
Proof.
  revert h e h'. induction xs as [|x xs IH]; intros h e h'.
  - split; [discriminate | inversion 1].
  - rewrite mapM_unfold_cons. split.
    + destruct (f x h) as [[t|e0] h1] eqn:Hx.
      * destruct (mapM f xs h1) as [[ts'|e1] h2] eqn:Hxs; [discriminate|].
        intros [= <- <-]. eapply runs_raise_later; [exact Hx|]. apply IH, Hxs.
      * intros [= <- <-]. apply runs_raise_here, Hx.
    + inversion 1 as [? ? ? ? ? Hx|? ? ? t h1 ? ? Hx Hxs]; subst.
      * rewrite Hx. reflexivity.
      * rewrite Hx. apply IH in Hxs. rewrite Hxs. reflexivity.
Qed.

(** The accumulating loop returns the lines it started with followed by the
    results of the body, in the order of the items. *)
Lemma for_append_mapM {X} (body : X → M string) xs allBrailleLines h :
  for_append xs body allBrailleLines h =
  (lines ← mapM body xs; mret (allBrailleLines ++ lines)%list) h.
Proof.
  revert allBrailleLines h. induction xs as [|x xs IH]; intros acc h.
  - simpl. rewrite bind_unfold, !ret_unfold, app_nil_r. reflexivity.
  - cbn [for_append]. rewrite !bind_unfold, mapM_unfold_cons.
    destruct (body x h) as [[t|e] h1]; [|reflexivity].
    rewrite IH, bind_unfold.
    destruct (mapM body xs h1) as [[ts|e] h2]; [|reflexivity].
    rewrite !ret_unfold, <- app_assoc. reflexivity.
Qed.

(** ** Opus *)

Lemma opusToBraille_unfold E music21Opus keywords h :
  opusToBraille E music21Opus keywords h =
  (transcriptions ← mapM (λ score, scoreToBraille E score keywords)
                      (contained h music21Opus Score);
   mret (join (nl ++ nl) transcriptions)) h.
Proof.
  unfold opusToBraille. rewrite bind_unfold.
  unfold getElementsByClass at 1. cbv beta iota.
  rewrite bind_unfold, for_append_mapM, !bind_unfold.
  destruct (mapM (M:=M) _ _ h) as [[ts|e] h']; reflexivity.
Qed.

(** C8. For every Opus, [opusToBraille] returns the transcriptions of the
    Scores it contains, taken in order (each Score transcribed in the store
    left by the one before it), joined by a blank line, that is, separated by
    two newline characters; if the transcription of a Score raises, so does
    [opusToBraille]. *)
Theorem opusToBraille_joins_scores (E : External) (music21Opus : loc)
    (keywords : Keywords) (h : Heap) :
  opusToBraille E music21Opus keywords h =
  (transcriptions ← mapM (λ score, scoreToBraille E score keywords)
                      (contained h music21Opus Score);
   mret (join (String "010" (String "010" "")) transcriptions)) h.
Proof. apply opusToBraille_unfold. Qed.

Corollary opusToBraille_returns E music21Opus keywords h transcriptions h' :
  runs (λ score, scoreToBraille E score keywords)
       (contained h music21Opus Score) h transcriptions h' →
  opusToBraille E music21Opus keywords h = (Ok (join (nl ++ nl) transcriptions), h').
Proof.
  intros Hruns. apply mapM_runs in Hruns.
  rewrite opusToBraille_unfold, bind_unfold, Hruns. reflexivity.
Qed.

Corollary opusToBraille_raises E music21Opus keywords h e h' :
  runs_raise (λ score, scoreToBraille E score keywords)
             (contained h music21Opus Score) h e h' →
  opusToBraille E music21Opus keywords h = (Raise e, h').
Proof.
  intros Hruns. apply mapM_runs_raise in Hruns.
  rewrite opusToBraille_unfold, bind_unfold, Hruns. reflexivity.
Qed.

(** ** Metadata summary lines *)

Lemma span_forallb p s a b :
  span p s = (a, b) → string_forallb p a = true ∧ s = a ++ b.
Proof.
  revert a b. induction s as [|c s IH]; intros a b; simpl.
  - intros [= <- <-]. done.
  - destruct (p c) eqn:Hc.
    + destruct (span p s) as [a' b'] eqn:Hs. intros [= <- <-].
      destruct (IH _ _ eq_refl) as [Ha ->]. simpl. rewrite Hc, Ha. done.
    + intros [= <- <-]. done.
Qed.

Lemma string_forallb_app p a b :
  string_forallb p (a ++ b) = string_forallb p a && string_forallb p b.
Proof. induction a as [|c a IH]; simpl; [done|]. rewrite IH, andb_assoc. done. Qed.

Lemma string_forallb_impl (p q : ascii → bool) s :
  (∀ c, p c = true → q c = true) →
  string_forallb p s = true → string_forallb q s = true.
Proof.
  intros Hpq. induction s as [|c s IH]; simpl; [done|].
  intros [Hc Hs]%andb_true_iff. rewrite (Hpq _ Hc), IH; done.
Qed.

Lemma match_word_is_word s w rest :
  match_word s = Some (w, rest) → is_word w.
Proof.
  unfold match_word.
  destruct (span is_upper s) as [u r] eqn:Hu.
  destruct (span is_lower r) as [l r'] eqn:Hl.
  destruct l as [|c l]; [discriminate|]. intros [= <- <-].
  apply span_forallb in Hu as [Hu _]. apply span_forallb in Hl as [Hl _].
  split.
  - destruct u; discriminate.
  - rewrite string_forallb_app. apply andb_true_iff. split.
    + eapply string_forallb_impl; [|exact Hu]. intros c' Hc. unfold is_letter. by rewrite Hc.
    + eapply string_forallb_impl; [|exact Hl]. intros c' Hc. unfold is_letter.
      rewrite Hc. apply orb_true_r.
Qed.

Lemma findall_fuel_words fuel s : Forall is_word (findall_fuel fuel s).
Proof.
  revert s. induction fuel as [|fuel IH]; intros s; simpl; [constructor|].
  destruct s as [|c tl]; [constructor|].
  destruct (match_word (String c tl)) as [[w rest]|] eqn:Hm; [|apply IH].
  constructor; [|apply IH]. eapply match_word_is_word, Hm.
Qed.

Lemma findall_words s : Forall is_word (findall s).
Proof. apply findall_fuel_words. Qed.

Lemma span_length p s a b :
  span p s = (a, b) → String.length s = (String.length a + String.length b)%nat.
Proof.
  revert a b. induction s as [|c s IH]; intros a b; simpl.
  - intros [= <- <-]. done.
  - destruct (p c).
    + destruct (span p s) as [a' b'] eqn:Hs. intros [= <- <-].
      simpl. by rewrite (IH _ _ eq_refl).
    + intros [= <- <-]. done.
Qed.

(** A match is not empty: the scan resumes on a shorter text. *)
Lemma match_word_shorter s w rest :
  match_word s = Some (w, rest) → (String.length rest < String.length s)%nat.
Proof.
  unfold match_word.
  destruct (span is_upper s) as [u r] eqn:Hu.
  destruct (span is_lower r) as [l r'] eqn:Hl.
  destruct l as [|c l]; [discriminate|]. intros [= <- <-].
  apply span_length in Hu, Hl. simpl in Hl. lia.
Qed.

(** The scan ends within the steps [findall] allows: more steps give the
    same matches. *)
Lemma findall_fuel_enough fuel fuel' s :
  (String.length s ≤ fuel)%nat → (String.length s ≤ fuel')%nat →
  findall_fuel fuel s = findall_fuel fuel' s.
Proof.
  revert fuel' s. induction fuel as [|fuel IH]; intros fuel' s Hf Hf'.
  - destruct s; [|simpl in Hf; lia]. by destruct fuel'.
  - destruct s as [|c tl]; [by destruct fuel'|].
    destruct fuel' as [|fuel']; [simpl in Hf'; lia|].
    cbn [findall_fuel]. simpl in Hf, Hf'.
    destruct (match_word (String c tl)) as [[w rest]|] eqn:Hm.
    + apply match_word_shorter in Hm. simpl in Hm.
      f_equal. apply IH; lia.
    + apply IH; lia.
Qed.

Lemma is_lower_not_upper c : is_lower c = true → is_upper c = false.
Proof.
  unfold is_lower, is_upper. intros [H1 H2]%andb_true_iff.
  apply Nat.leb_le in H1. apply andb_false_iff. right. apply Nat.leb_gt. lia.
Qed.

Lemma title_from_letters w s :
  string_forallb is_letter w = true →
  title_from true (w ++ s) = string_map to_lower w ++ title_from true s.
Proof.
  induction w as [|c w IH]; simpl; [done|].
  intros [Hc Hw]%andb_true_iff. rewrite (IH Hw).
  destruct (is_lower c) eqn:Hl.
  - unfold to_lower. rewrite (is_lower_not_upper _ Hl). done.
  - unfold is_letter in Hc. rewrite Hl, orb_false_r in Hc. rewrite Hc. done.
Qed.

Lemma title_from_word w s :
  is_word w → title_from false (w ++ s) = capitalize w ++ title_from true s.
Proof.
  intros [Hne Hw]. destruct w as [|c w]; [done|]. simpl in *.
  apply andb_true_iff in Hw as [Hc Hw]. rewrite (title_from_letters _ _ Hw).
  destruct (is_lower c) eqn:Hl; [done|].
  unfold is_letter in Hc. rewrite Hl, orb_false_r in Hc. rewrite Hc.
  unfold to_upper. rewrite Hl. done.
Qed.

Lemma string_app_empty_r (s : string) : s ++ "" = s.
Proof.
  induction s as [|c s IH]; [done|].
  change (String c (s ++ "") = String c s). by rewrite IH.
Qed.

(** [title] capitalises each of the words joined by spaces. *)
Lemma title_join_words ws :
  Forall is_word ws → title (join " " ws) = join " " (map capitalize ws).
Proof.
  unfold title, join. induction 1 as [|w ws Hw Hws IH]; [done|].
  destruct ws as [|w' ws].
  - simpl. rewrite <- (string_app_empty_r w) at 1.
    rewrite (title_from_word _ _ Hw). simpl. apply string_app_empty_r.
  - change (String.concat " " (w :: w' :: ws))
      with (w ++ String " " (String.concat " " (w' :: ws))).
    rewrite (title_from_word _ _ Hw).
    change (title_from true (String " " (String.concat " " (w' :: ws))))
      with (String " " (title_from false (String.concat " " (w' :: ws)))).
    rewrite IH. reflexivity.
Qed.

Lemma format_workId_summary_line key value :
  format_workId key value = summary_line key value.
Proof.
  unfold format_workId, summary_line. by rewrite (title_join_words _ (findall_words key)).
Qed.

Lemma workId_loop_spec ids allBrailleLines :
  workId_loop ids allBrailleLines = (allBrailleLines ++ summary_lines ids)%list.
Proof.
  revert allBrailleLines. induction ids as [|[key [v|]] ids IH]; intros acc; simpl.
  - by rewrite app_nil_r.
  - rewrite IH, <- app_assoc, format_workId_summary_line. done.
  - apply IH.
Qed.

#[global] Instance string_le_total : Total string_le.
Proof. intros s t. apply String.leb_total. Qed.

#[global] Instance string_le_antisym : AntiSymm (=) string_le.
Proof. intros s t. apply String.leb_antisym. Qed.

Lemma metadata_text_is_summary ids : is_summary ids (metadata_text ids).
Proof.
  exists (sorted (workId_loop ids [])). split; [done|]. split.
  - apply Sorted_merge_sort, _.
  - unfold sorted. rewrite merge_sort_Permutation, workId_loop_spec. done.
Qed.

Lemma metadataToString_unfold md h :
  metadataToString md h = (Ok (metadata_text (workIds_of h md)), h).
Proof. reflexivity. Qed.

Lemma mapM_metadataToString mds h :
  mapM metadataToString mds h = (Ok (map (λ md, metadata_text (workIds_of h md)) mds), h).
Proof.
  induction mds as [|md mds IH]; [done|].
  rewrite mapM_unfold_cons, metadataToString_unfold, IH. done.
Qed.

(** The metadata of the docstring of [metadataToString]. *)
Example metadataToString_corelli :
  join nl (sorted (workId_loop
    [("title", Some "Church Sonatas, Op. 3: Sonata I");
     ("movementNumber", Some "1");
     ("alternativeTitle", None);
     ("number", Some "3");
     ("movementName", Some "[Movement 1]")] []))
  = "Movement Name: [Movement 1]" ++ nl ++ "Movement Number: 1" ++ nl
    ++ "Number: 3" ++ nl ++ "Title: Church Sonatas, Op. 3: Sonata I".
Proof. vm_compute. reflexivity. Qed.

(** ** Score *)


#[global] Instance string_le_trans : Transitive string_le.
Proof.
  unfold string_le, String.leb. intros a. induction a as [|x a IH]; intros b c.
  - destruct b, c; simpl; done.
  - destruct b as [|y b], c as [|z c]; simpl; try done.
    unfold Ascii.compare.
    destruct (N.compare_spec (N_of_ascii x) (N_of_ascii y)) as [Hxy|Hxy|Hxy];
      destruct (N.compare_spec (N_of_ascii y) (N_of_ascii z)) as [Hyz|Hyz|Hyz];
      destruct (N.compare_spec (N_of_ascii x) (N_of_ascii z)) as [Hxz|Hxz|Hxz];
      try done; try lia.
    apply IH.
Qed.

(** The iteration order of the dictionary [_workIds] does not show in the
    text: a sorted list is determined by the lines it holds. *)
Lemma Sorted_string_le_unique (l1 l2 : list string) :
  Sorted string_le l1 → Sorted string_le l2 → l1 ≡ₚ l2 → l1 = l2.
Proof.
  apply (Sorted_unique string_le); apply _.
Qed.

Lemma metadata_text_permutation ids ids' :
  ids ≡ₚ ids' → metadata_text ids = metadata_text ids'.
Proof.
  intros Hp. unfold metadata_text. f_equal.
  apply Sorted_string_le_unique; try apply Sorted_merge_sort, _.
  unfold sorted. rewrite !merge_sort_Permutation, !workId_loop_spec. simpl.
  unfold summary_lines. by rewrite Hp.
Qed.

Lemma is_summary_unique ids text :
  is_summary ids text → text = metadata_text ids.
Proof.
  intros (lines & -> & Hs & Hp). unfold metadata_text. f_equal.
  apply Sorted_string_le_unique; [done|apply Sorted_merge_sort, _|].
  unfold sorted. by rewrite merge_sort_Permutation, workId_loop_spec.
Qed.

(** ** Dispatch on the kind of stream *)

Lemma isinstance_unfold l c h : isinstance l c h = (Ok (is_instance h c l), h).
Proof. reflexivity. Qed.

Lemma getElementsByClass_unfold s c h :
  getElementsByClass s c h = (Ok (contained h s c), h).
Proof. reflexivity. Qed.

Ltac step :=
  rewrite ?bind_unfold, ?isinstance_unfold, ?getElementsByClass_unfold; cbv beta iota.

Lemma streamToBraille_part E s kw h :
  is_instance h Part s = true ∨ is_instance h TinyNotationStream s = true →
  streamToBraille E s kw h = partToBraille E s kw h.
Proof.
  intros H. unfold streamToBraille. do 2 step.
  destruct H as [-> | ->]; [done|]. by rewrite orb_true_r.
Qed.

Lemma streamToBraille_measure E s kw h :
  is_instance h Part s = false → is_instance h TinyNotationStream s = false →
  is_instance h Measure s = true →
  streamToBraille E s kw h = measureToBraille E s kw h.
Proof.
  intros HP HT HM. unfold streamToBraille.
  do 2 step. rewrite HP, HT. cbn [orb]. step. by rewrite HM.
Qed.

Lemma streamToBraille_keyboard E s kw h upper lower :
  is_instance h Part s = false → is_instance h TinyNotationStream s = false →
  is_instance h Measure s = false →
  contained h s PartStaff = [upper; lower] →
  streamToBraille E s kw h = keyboardPartsToBraille E upper lower kw h.
Proof.
  intros HP HT HM HK. unfold streamToBraille.
  do 2 step. rewrite HP, HT. cbn [orb]. step. rewrite HM. step. by rewrite HK.
Qed.

Lemma streamToBraille_score E s kw h :
  is_instance h Part s = false → is_instance h TinyNotationStream s = false →
  is_instance h Measure s = false →
  length (contained h s PartStaff) ≠ 2 →
  is_instance h Score s = true →
  streamToBraille E s kw h = scoreToBraille E s kw h.
Proof.
  intros HP HT HM HK HS. unfold streamToBraille.
  do 2 step. rewrite HP, HT. cbn [orb]. step. rewrite HM. step.
  rewrite bool_decide_eq_false_2 by done. step. by rewrite HS.
Qed.

Lemma streamToBraille_opus E s kw h :
  is_instance h Part s = false → is_instance h TinyNotationStream s = false →
  is_instance h Measure s = false →
  length (contained h s PartStaff) ≠ 2 →
  is_instance h Score s = false → is_instance h Opus s = true →
  streamToBraille E s kw h = opusToBraille E s kw h.
Proof.
  intros HP HT HM HK HS HO. unfold streamToBraille.
  do 2 step. rewrite HP, HT. cbn [orb]. step. rewrite HM. step.
  rewrite bool_decide_eq_false_2 by done. step. rewrite HS. step. by rewrite HO.
Qed.

(** C2, as amended.  A stream that is not a Part, a TinyNotationStream, a
    Measure, a stream containing exactly two PartStaff elements, a Score or an
    Opus makes [streamToBraille] raise [BrailleTranslateException]; nothing is
    transcribed and the store is left as it was. *)
Theorem streamToBraille_unsupported (E : External) (music21Stream : loc)
    (keywords : Keywords) (h : Heap) :
  is_instance h Part music21Stream = false →
  is_instance h TinyNotationStream music21Stream = false →
  is_instance h Measure music21Stream = false →
  length (contained h music21Stream PartStaff) ≠ 2 →
  is_instance h Score music21Stream = false →
  is_instance h Opus music21Stream = false →
  streamToBraille E music21Stream keywords h =
  (Raise (BrailleTranslateException "Stream cannot be translated to Braille."), h).
Proof.
  intros HP HT HM HK HS HO. unfold streamToBraille.
  do 2 step. rewrite HP, HT. cbn [orb]. step. rewrite HM. step.
  rewrite bool_decide_eq_false_2 by done. step. rewrite HS. step. by rewrite HO.
Qed.

(** C10, as amended.  A stream that is not a Part, a TinyNotationStream or a
    Measure and contains exactly two PartStaff elements, a Score and an Opus
    included, is transcribed by [keyboardPartsToBraille] on the two staves;
    the Score branch, and with it the metadata summary, is not reached. *)
Theorem streamToBraille_two_staves_first (E : External) (music21Stream : loc)
    (keywords : Keywords) (h : Heap) (upper lower : loc) :
  is_instance h Part music21Stream = false →
  is_instance h TinyNotationStream music21Stream = false →
  is_instance h Measure music21Stream = false →
  contained h music21Stream PartStaff = [upper; lower] →
  streamToBraille E music21Stream keywords h =
  keyboardPartsToBraille E upper lower keywords h.
Proof. apply streamToBraille_keyboard. Qed.

(** C2 as stated fails: a TinyNotationStream is a Stream that is none of a
    Part, a Measure, a Score, an Opus or a stream containing exactly two
    PartStaff elements, and [streamToBraille] transcribes it as a Part. *)
Lemma streamToBraille_TinyNotationStream_transcribed :
  ¬ (∀ (E : External) (music21Stream : loc) (keywords : Keywords) (h : Heap),
       is_instance h Stream music21Stream = true →
       is_instance h Part music21Stream = false →
       is_instance h Measure music21Stream = false →
       length (contained h music21Stream PartStaff) ≠ 2 →
       is_instance h Score music21Stream = false →
       is_instance h Opus music21Stream = false →
       ∃ e h', streamToBraille E music21Stream keywords h = (Raise e, h')).
Proof.
  intros H.
  destruct (H Mock.engine 0 ∅ Mock.tiny) as (e & h' & Heq); [by vm_compute..|].
  vm_compute in Heq. discriminate.
Qed.

Example streamToBraille_TinyNotationStream_output :
  (streamToBraille Mock.engine 0 ∅ Mock.tiny).1 = Ok "f".
Proof. vm_compute. reflexivity. Qed.

Lemma streamToBraille_unsupported_witness :
  is_instance Mock.voice Part 0 = false ∧
  is_instance Mock.voice TinyNotationStream 0 = false ∧
  is_instance Mock.voice Measure 0 = false ∧
  length (contained Mock.voice 0 PartStaff) ≠ 2 ∧
  is_instance Mock.voice Score 0 = false ∧
  is_instance Mock.voice Opus 0 = false ∧
  streamToBraille Mock.engine 0 ∅ Mock.voice =
  (Raise (BrailleTranslateException "Stream cannot be translated to Braille."), Mock.voice).
Proof.
  set (h := Mock.voice).
  assert (is_instance h Part 0 = false) as HP by (vm_compute; reflexivity).
  assert (is_instance h TinyNotationStream 0 = false) as HT by (vm_compute; reflexivity).
  assert (is_instance h Measure 0 = false) as HM by (vm_compute; reflexivity).
  assert (length (contained h 0 PartStaff) ≠ 2) as HK by (vm_compute; lia).
  assert (is_instance h Score 0 = false) as HS by (vm_compute; reflexivity).
  assert (is_instance h Opus 0 = false) as HO by (vm_compute; reflexivity).
  refine (conj HP (conj HT (conj HM (conj HK (conj HS (conj HO _)))))).
  exact (streamToBraille_unsupported Mock.engine 0 ∅ h HP HT HM HK HS HO).
Defined.

(** C10 as stated fails: a Part that holds exactly two PartStaff elements is
    transcribed as a Part; the test for two staves is not reached. *)
Lemma streamToBraille_Part_of_two_staves :
  ¬ (∀ (E : External) (music21Stream : loc) (keywords : Keywords) (h : Heap)
       (upper lower : loc),
       is_instance h Stream music21Stream = true →
       contained h music21Stream PartStaff = [upper; lower] →
       streamToBraille E music21Stream keywords h =
       keyboardPartsToBraille E upper lower keywords h).
Proof.
  intros H.
  specialize (H Mock.engine 0 ∅ Mock.part_of_staves 1 2 eq_refl eq_refl).
  apply (f_equal fst) in H. vm_compute in H. discriminate.
Qed.

Example streamToBraille_Part_of_two_staves_output :
  (streamToBraille Mock.engine 0 ∅ Mock.part_of_staves).1 = Ok "" ∧
  (keyboardPartsToBraille Mock.engine 1 2 ∅ Mock.part_of_staves).1 = Ok ("f" ++ nl ++ "p").
Proof. split; vm_compute; reflexivity. Qed.

Lemma streamToBraille_two_staves_first_witness :
  is_instance Mock.uneven Score 0 = true ∧
  is_instance Mock.uneven Part 0 = false ∧
  is_instance Mock.uneven TinyNotationStream 0 = false ∧
  is_instance Mock.uneven Measure 0 = false ∧
  contained Mock.uneven 0 PartStaff = [2; 3] ∧
  streamToBraille Mock.engine 0 ∅ Mock.uneven =
  keyboardPartsToBraille Mock.engine 2 3 ∅ Mock.uneven.
Proof.
  set (h := Mock.uneven).
  assert (is_instance h Part 0 = false) as HP by (vm_compute; reflexivity).
  assert (is_instance h TinyNotationStream 0 = false) as HT by (vm_compute; reflexivity).
  assert (is_instance h Measure 0 = false) as HM by (vm_compute; reflexivity).
  assert (contained h 0 PartStaff = [2; 3]) as HK by (vm_compute; reflexivity).
  refine (conj _ (conj HP (conj HT (conj HM (conj HK _))))); [vm_compute; reflexivity|].
  exact (streamToBraille_two_staves_first Mock.engine 0 ∅ h 2 3 HP HT HM HK).
Defined.

(** The Score of [Mock.uneven] has a title, and the title is not in the text
    returned for it: the text is that of the first measures of its two
    staves. *)
Example streamToBraille_Score_of_two_staves_output :
  (streamToBraille Mock.engine 0 ∅ Mock.uneven).1 = Ok ("f" ++ nl ++ "p") ∧
  (scoreToBraille Mock.engine 0 ∅ Mock.uneven).1
  = Ok ("Title: Study" ++ nl ++ "f" ++ nl ++ "mf" ++ nl ++ "p").
Proof. split; vm_compute; reflexivity. Qed.

(** ** Renotation and the transcription of a notated part *)

Lemma mapM_ext {X} (f g : X → M string) xs h :
  (∀ x h, f x h = g x h) → mapM f xs h = mapM g xs h.
Proof.
  intros Hfg. revert h. induction xs as [|x xs IH]; intros h; [done|].
  rewrite !mapM_unfold_cons, Hfg. destruct (g x h) as [[t|e] h1]; [|done].
  by rewrite IH.
Qed.

Lemma for_append_nil_mapM {X} (body : X → M string) xs h :
  for_append xs body [] h = mapM body xs h.
Proof.
  rewrite for_append_mapM, bind_unfold.
  destruct (mapM (M:=M) body xs h) as [[ts|e] h1]; reflexivity.
Qed.

Lemma partToBraille_unfold E p kw h :
  partToBraille E p kw h = (pt ← renotated E kw p; transcribe_notated E pt kw) h.
Proof.
  unfold partToBraille, renotated, transcribe_notated. cbn [_translateArgs fst snd].
  rewrite !bind_unfold.
  destruct (renotated E kw p h) as [[pt|e] h1] eqn:Hpt;
    unfold renotated in Hpt; cbn [_translateArgs fst snd] in Hpt; rewrite Hpt; [|done].
  rewrite !bind_unfold. destruct (findSegments E pt kw h1) as [[segs|e] h2]; [|done].
  rewrite !bind_unfold, for_append_nil_mapM. reflexivity.
Qed.

Lemma keyboardPartsToBraille_unfold E u l kw h :
  keyboardPartsToBraille E u l kw h =
  (upper ← renotated E kw u;
   lower ← renotated E kw l;
   rhSegments ← findSegments E upper kw;
   lhSegments ← findSegments E lower kw;
   texts ← mapM (grand_segment_text E kw) (zip rhSegments lhSegments);
   mret (join nl texts)) h.
Proof.
  unfold keyboardPartsToBraille, renotated. cbn [_translateArgs fst snd].
  rewrite !bind_unfold.
  destruct (renotated E kw u h) as [[ut|e] h1] eqn:Hut;
    unfold renotated in Hut; cbn [_translateArgs fst snd] in Hut; rewrite Hut; [|done].
  rewrite !bind_unfold.
  destruct (renotated E kw l h1) as [[lt|e] h2] eqn:Hlt;
    unfold renotated in Hlt; cbn [_translateArgs fst snd] in Hlt; rewrite Hlt; [|done].
  rewrite !bind_unfold. destruct (findSegments E ut kw h2) as [[rh|e] h3]; [|done].
  rewrite !bind_unfold. destruct (findSegments E lt kw h3) as [[lh|e] h4]; [|done].
  rewrite !bind_unfold, for_append_nil_mapM.
  erewrite mapM_ext; [reflexivity|]. intros [r l'] h'. reflexivity.
Qed.

Lemma runs_length {X} (f : X → M string) xs h ts h' :
  runs f xs h ts h' → length ts = length xs.
Proof. induction 1; simpl; congruence. Qed.

(** ** Keyboard parts *)

(** C1, as amended.  [keyboardPartsToBraille] does not compare the lengths of
    the two sequences of segments.  When renotation and segmentation return
    and the grand segments of the pairs taken index by index (upper segment
    first) up to the end of the shorter sequence are built and rendered, it
    returns their texts joined by newlines: as many as the shorter sequence
    has segments, hence one for each index when the lengths are equal. *)
Theorem keyboardPartsToBraille_pairs_by_index (E : External)
    (music21PartStaffUpper music21PartStaffLower : loc) (keywords : Keywords)
    (h h1 h2 h3 h4 h5 : Heap) (upper lower : loc)
    (rhSegments lhSegments : list (Segment E)) (texts : list string) :
  renotated E keywords music21PartStaffUpper h = (Ok upper, h1) →
  renotated E keywords music21PartStaffLower h1 = (Ok lower, h2) →
  findSegments E upper keywords h2 = (Ok rhSegments, h3) →
  findSegments E lower keywords h3 = (Ok lhSegments, h4) →
  runs (grand_segment_text E keywords) (zip rhSegments lhSegments) h4 texts h5 →
  keyboardPartsToBraille E music21PartStaffUpper music21PartStaffLower keywords h
  = (Ok (join nl texts), h5) ∧
  length texts = length rhSegments `min` length lhSegments ∧
  (length rhSegments = length lhSegments → length texts = length rhSegments).
Proof.
  intros Hu Hl Hrh Hlh Hruns. split.
  - rewrite keyboardPartsToBraille_unfold.
    rewrite (bind_ok _ _ _ _ _ Hu), (bind_ok _ _ _ _ _ Hl).
    rewrite (bind_ok _ _ _ _ _ Hrh), (bind_ok _ _ _ _ _ Hlh).
    apply mapM_runs in Hruns. rewrite (bind_ok _ _ _ _ _ Hruns). reflexivity.
  - apply runs_length in Hruns. rewrite length_zip in Hruns. lia.
Qed.

(** C1 as stated fails: with two measures in the upper staff and one in the
    lower, hence two segments against one, nothing is raised; the second
    upper segment is left out. *)
Lemma keyboardPartsToBraille_unequal_not_raised :
  ¬ (∀ (E : External) (music21PartStaffUpper music21PartStaffLower : loc)
       (keywords : Keywords) (h h1 h2 h3 h4 : Heap) (upper lower : loc)
       (rhSegments lhSegments : list (Segment E)),
       renotated E keywords music21PartStaffUpper h = (Ok upper, h1) →
       renotated E keywords music21PartStaffLower h1 = (Ok lower, h2) →
       findSegments E upper keywords h2 = (Ok rhSegments, h3) →
       findSegments E lower keywords h3 = (Ok lhSegments, h4) →
       length rhSegments ≠ length lhSegments →
       ∃ e h',
         keyboardPartsToBraille E music21PartStaffUpper music21PartStaffLower keywords h
         = (Raise e, h')).
Proof.
  intros H.
  set (kw := {["inPlace" := VBool true]} : Keywords).
  destruct (H Mock.engine 2 3 kw Mock.uneven Mock.uneven Mock.uneven Mock.uneven
              Mock.uneven 2 3 [4; 5] [6]) as (e & h' & Heq);
    [by vm_compute..|].
  apply (f_equal fst) in Heq. vm_compute in Heq. discriminate.
Qed.

Example keyboardPartsToBraille_unequal_output :
  (keyboardPartsToBraille Mock.engine 2 3 {["inPlace" := VBool true]} Mock.uneven).1
  = Ok ("f" ++ nl ++ "p").
Proof. vm_compute. reflexivity. Qed.

Lemma keyboardPartsToBraille_pairs_by_index_witness :
  keyboardPartsToBraille Mock.engine 2 3 {["inPlace" := VBool true]} Mock.uneven
  = (Ok (join nl ["f" ++ nl ++ "p"]), Mock.uneven) ∧
  length ["f" ++ nl ++ "p"] = length [4; 5] `min` length [6] ∧
  (length [4; 5] = length [6] → length ["f" ++ nl ++ "p"] = length [4; 5]).
Proof.
  apply (keyboardPartsToBraille_pairs_by_index Mock.engine 2 3
           {["inPlace" := VBool true]}
           Mock.uneven Mock.uneven Mock.uneven Mock.uneven Mock.uneven Mock.uneven
           2 3 [4; 5] [6] ["f" ++ nl ++ "p"]).
  - vm_compute. reflexivity.
  - vm_compute. reflexivity.
  - vm_compute. reflexivity.
  - vm_compute. reflexivity.
  - apply (runs_cons _ (4, 6) [] Mock.uneven ("f" ++ nl ++ "p") Mock.uneven [] Mock.uneven).
    + vm_compute. reflexivity.
    + apply runs_nil.
Defined.

(** ** A lone measure *)

Lemma filled_lookup name keywords k :
  filled name keywords !! k =
  if decide (k = name) then Some (default (VBool false) (keywords !! name))
  else keywords !! k.
Proof.
  unfold filled. destruct (decide (k = name)) as [->|Hne].
  - destruct (keywords !! name) as [v|] eqn:Hv; [by rewrite Hv|].
    by rewrite lookup_insert_eq.
  - destruct (keywords !! name); [done|]. by rewrite lookup_insert_ne.
Qed.

Lemma measureToBraille_unfold E music21Measure keywords h :
  measureToBraille E music21Measure keywords h =
  (measureToTranscribe ← renotated E keywords music21Measure;
   music21Part ← construct Part [measureToTranscribe];
   transcribe_notated E music21Part (measure_keywords keywords)) h.
Proof.
  unfold measureToBraille, renotated, measure_keywords, filled.
  cbn [_translateArgs fst snd]. rewrite !bind_unfold.
  destruct ((if negb (truthy (default (VBool false) (keywords !! "inPlace")))
             then makeNotation E music21Measure else mret music21Measure) h)
    as [[mt|e] h1]; [|done].
  rewrite !bind_unfold. destruct (construct Part [mt] h1) as [[p|e] h2]; [|done].
  rewrite partToBraille_unfold. unfold renotated. cbn [_translateArgs fst snd].
  rewrite lookup_insert_eq. cbn. reflexivity.
Qed.

(** C9. [measureToBraille] wraps the measure (renotated unless [inPlace]) in
    a new Part and transcribes that Part as it is, with keywords in which
    [showHeading] and [showFirstMeasureNumber] have the value the caller gave
    and [False] when the caller gave none, [inPlace] is [True], and every
    other keyword is as the caller gave it. *)
Theorem measureToBraille_keywords (E : External) (music21Measure : loc)
    (keywords : Keywords) (h : Heap) :
  ∃ keywords' : Keywords,
    measureToBraille E music21Measure keywords h =
    (measureToTranscribe ← renotated E keywords music21Measure;
     music21Part ← construct Part [measureToTranscribe];
     transcribe_notated E music21Part keywords') h ∧
    keywords' !! "showHeading"
      = Some (default (VBool false) (keywords !! "showHeading")) ∧
    keywords' !! "showFirstMeasureNumber"
      = Some (default (VBool false) (keywords !! "showFirstMeasureNumber")) ∧
    keywords' !! "inPlace" = Some (VBool true) ∧
    ∀ k, k ≠ "showHeading" → k ≠ "showFirstMeasureNumber" → k ≠ "inPlace" →
         keywords' !! k = keywords !! k.
Proof.
  exists (measure_keywords keywords). split; [apply measureToBraille_unfold|].
  unfold measure_keywords. repeat split.
  - rewrite lookup_insert_ne by done. rewrite !filled_lookup.
    rewrite decide_False by done. by rewrite decide_True.
  - rewrite lookup_insert_ne by done. rewrite !filled_lookup.
    rewrite decide_True by done. by rewrite decide_False.
  - apply lookup_insert_eq.
  - intros k Hk1 Hk2 Hk3. rewrite lookup_insert_ne by done.
    rewrite !filled_lookup. by rewrite !decide_False.
Qed.

(** ** Transcribing a copy *)

Lemma preserves_refl owned h : preserves owned h h.
Proof. by intros l _. Qed.

Lemma preserves_trans owned h1 h2 h3 :
  preserves owned h1 h2 → preserves owned h2 h3 → preserves owned h1 h3.
Proof. intros H12 H23 l Hl. by rewrite (H23 l Hl), (H12 l Hl). Qed.

Lemma preserves_dom owned h h' :
  owned ⊆ dom h → preserves owned h h' → owned ⊆ dom h'.
Proof.
  intros Hsub Hpres l Hl. apply elem_of_dom. rewrite (Hpres l Hl).
  apply elem_of_dom, Hsub, Hl.
Qed.

Lemma segment_text_preserves E owned kw seg h :
  owned ⊆ dom h → segment_is_local E owned seg →
  preserves owned h (segment_text E kw seg h).2.
Proof.
  intros Hdom Hloc. unfold segment_text. rewrite bind_unfold.
  destruct (Hloc h Hdom) as [Ht _].
  destruct (transcribe E seg h) as [[t|e] h1]; [|exact Ht]. simpl in Ht.
  destruct (negb _); [exact Ht|].
  eapply preserves_trans; [exact Ht|]. apply Hloc. by eapply preserves_dom.
Qed.

Lemma mapM_segment_text_preserves E owned kw segs h :
  owned ⊆ dom h → Forall (segment_is_local E owned) segs →
  preserves owned h (mapM (segment_text E kw) segs h).2.
Proof.
  intros Hdom Hall. revert h Hdom.
  induction Hall as [|seg segs Hseg _ IH]; intros h Hdom.
  - apply preserves_refl.
  - rewrite mapM_unfold_cons.
    pose proof (segment_text_preserves E owned kw seg h Hdom Hseg) as H1.
    destruct (segment_text E kw seg h) as [[t|e] h1]; [|exact H1]. simpl in H1.
    assert (owned ⊆ dom h1) as Hdom1 by by eapply preserves_dom.
    specialize (IH h1 Hdom1).
    destruct (mapM (M:=M) (segment_text E kw) segs h1) as [[ts|e] h2];
      by eapply preserves_trans.
Qed.

Lemma transcribe_notated_preserves E owned p kw h :
  owned ⊆ dom h → p ∉ owned → segmentation_is_local E owned →
  preserves owned h (transcribe_notated E p kw h).2.
Proof.
  intros Hdom Hp Hseg. unfold transcribe_notated. rewrite bind_unfold.
  destruct (findSegments E p kw h) as [[segs|e] h1] eqn:Hfs.
  - destruct (Hseg _ _ _ _ _ Hdom Hp Hfs) as [H1 Hall]. specialize (Hall segs eq_refl).
    assert (owned ⊆ dom h1) as Hdom1 by by eapply preserves_dom.
    pose proof (mapM_segment_text_preserves E owned kw segs h1 Hdom1 Hall) as H2.
    rewrite bind_unfold.
    destruct (mapM (M:=M) (segment_text E kw) segs h1) as [[ts|e] h2];
      by eapply preserves_trans.
  - by destruct (Hseg _ _ _ _ _ Hdom Hp Hfs) as [H1 _].
Qed.

(** C5. With [inPlace] true, [partToBraille] transcribes its argument as it
    is and [makeNotation] plays no part in the result.  With [inPlace] false
    (or absent), it calls [makeNotation] on its argument first and transcribes
    the stream that call returns; and then, for a renotation that returns a
    copy and segments that are confined to the stream they were found in, the
    objects that existed before the call are unchanged after it, whether it
    returns or raises. *)
Theorem partToBraille_renotation (E : External) (music21Part : loc)
    (keywords : Keywords) (h : Heap) :
  if truthy (_translateArgs keywords).1 then
    partToBraille E music21Part keywords h
    = transcribe_notated E music21Part keywords h ∧
    ∀ mn, partToBraille (with_makeNotation E mn) music21Part keywords h
          = partToBraille E music21Part keywords h
  else
    partToBraille E music21Part keywords h
    = (copy ← makeNotation E music21Part; transcribe_notated E copy keywords) h ∧
    ∀ owned : gset loc,
      owned ⊆ dom h → renotation_copies E owned → segmentation_is_local E owned →
      preserves owned h (partToBraille E music21Part keywords h).2.
Proof.
  destruct (truthy (_translateArgs keywords).1) eqn:HinPlace.
  - assert (∀ E', partToBraille E' music21Part keywords h
                  = transcribe_notated E' music21Part keywords h) as Hin.
    { intros E'. rewrite partToBraille_unfold. unfold renotated. by rewrite HinPlace. }
    split; [apply Hin|]. intros mn. rewrite !Hin. reflexivity.
  - assert (partToBraille E music21Part keywords h
            = (copy ← makeNotation E music21Part;
               transcribe_notated E copy keywords) h) as Hcopy.
    { rewrite partToBraille_unfold. unfold renotated. by rewrite HinPlace. }
    split; [exact Hcopy|]. intros owned Hdom Hmn Hseg. rewrite Hcopy, bind_unfold.
    destruct (makeNotation E music21Part h) as [[copy|e] h1] eqn:Hmk.
    + destruct (Hmn _ _ _ _ Hdom Hmk) as [H1 Hfresh]. specialize (Hfresh copy eq_refl).
      eapply preserves_trans; [exact H1|].
      apply transcribe_notated_preserves; [by eapply preserves_dom|done..].
    + by destruct (Hmn _ _ _ _ Hdom Hmk) as [H1 _].
Qed.

Lemma Mock_renotation_copies owned : renotation_copies Mock.engine owned.
Proof.
  intros s h r h' Hdom. cbn [makeNotation Mock.engine]. unfold Mock.copy.
  destruct (h !! s) as [o|].
  - intros [= <- <-]. split.
    + intros l Hl. rewrite lookup_insert_ne; [done|].
      intros <-. apply Hdom in Hl. by apply is_fresh in Hl.
    + intros copy [= <-] Hin. apply Hdom in Hin. by apply is_fresh in Hin.
  - intros [= <- <-]. split; [apply preserves_refl|discriminate].
Qed.

Lemma Mock_segmentation_is_local owned : segmentation_is_local Mock.engine owned.
Proof.
  intros p kw h r h' _ _. cbn [findSegments Mock.engine]. unfold Mock.segments.
  intros [= <- <-]. split; [apply preserves_refl|].
  intros segs _. apply Forall_forall. intros seg _ h0 _.
  split; apply preserves_refl.
Qed.

Lemma partToBraille_renotation_witness :
  dom Mock.tiny ⊆ dom Mock.tiny ∧
  renotation_copies Mock.engine (dom Mock.tiny) ∧
  segmentation_is_local Mock.engine (dom Mock.tiny) ∧
  preserves (dom Mock.tiny) Mock.tiny (partToBraille Mock.engine 0 ∅ Mock.tiny).2.
Proof.
  pose proof (partToBraille_renotation Mock.engine 0 ∅ Mock.tiny) as H.
  change (truthy (_translateArgs ∅).1) with false in H. cbv iota in H.
  destruct H as [_ H].
  refine (conj (reflexivity _) (conj (Mock_renotation_copies _)
            (conj (Mock_segmentation_is_local _) _))).
  exact (H (dom Mock.tiny) (reflexivity _) (Mock_renotation_copies _)
           (Mock_segmentation_is_local _)).
Defined.

(** In the store of [Mock.tiny] the copy is made at location 3, the text is
    that of the copy, and the three objects of the caller are as they were. *)
Example partToBraille_copy_output :
  (partToBraille Mock.engine 0 ∅ Mock.tiny).1 = Ok "f" ∧
  (partToBraille Mock.engine 0 ∅ Mock.tiny).2
  = <[3 := newStream TinyNotationStream [1]]> Mock.tiny ∧
  (partToBraille Mock.engine 0 {["inPlace" := VBool true]} Mock.tiny).2 = Mock.tiny.
Proof. repeat split; vm_compute; reflexivity. Qed.

(** ** Determinism of the transcription of a Part *)

Lemma functional_retR {A} (a : A) : functional (retR a).
Proof. intros h out1 out2 -> ->. reflexivity. Qed.

Lemma functional_bindR {A B} (m : MR A) (k : A → MR B) :
  functional m → (∀ a, functional (k a)) → functional (bindR m k).
Proof.
  intros Hm Hk h out1 out2 (r1 & h1 & Hm1 & Hk1) (r2 & h2 & Hm2 & Hk2).
  pose proof (Hm _ _ _ Hm1 Hm2) as [= <- <-].
  destruct r1 as [a|e]; [by eapply Hk | congruence].
Qed.

Lemma functional_for_appendR {X} (xs : list X) (body : X → MR string) acc :
  (∀ x, functional (body x)) → functional (for_appendR xs body acc).
Proof.
  intros Hbody. revert acc. induction xs as [|x xs IH]; intros acc; simpl.
  - apply functional_retR.
  - apply functional_bindR; [apply Hbody|]. intros line. apply IH.
Qed.

Lemma functional_graph {A} (m : M A) : functional (graph m).
Proof. intros h out1 out2. unfold graph. congruence. Qed.

Lemma deterministic_graph_of E : deterministic (graph_of E).
Proof. repeat split; intros; apply functional_graph. Qed.


Lemma agrees_graph {A} (m : M A) : agrees (graph m) m.
Proof. by intros h out. Qed.

Lemma agrees_ret {A} (a : A) : agrees (retR a) (mret a).
Proof. intros h out. unfold retR. rewrite ret_unfold. split; congruence. Qed.

Lemma agrees_bind {A B} (mR : MR A) (m : M A) (kR : A → MR B) (k : A → M B) :
  agrees mR m → (∀ a, agrees (kR a) (k a)) → agrees (bindR mR kR) (m ≫= k).
Proof.
  intros Hm Hk h out. rewrite bind_unfold. unfold bindR. split.
  - intros (r & h1 & Hr & Hout). apply Hm in Hr. rewrite Hr.
    destruct r as [a|e]; [by apply Hk | done].
  - intros Hout. destruct (m h) as [r h1] eqn:Hr. exists r, h1.
    split; [by apply Hm|]. destruct r as [a|e]; [by apply Hk | done].
Qed.

Lemma agrees_for_append {X} (xs : list X) (bodyR : X → MR string)
    (body : X → M string) acc :
  (∀ x, agrees (bodyR x) (body x)) →
  agrees (for_appendR xs bodyR acc) (for_append xs body acc).
Proof.
  intros Hbody. revert acc. induction xs as [|x xs IH]; intros acc; simpl.
  - apply agrees_ret.
  - apply agrees_bind; [apply Hbody|]. intros line. apply IH.
Qed.

Lemma partToBrailleR_graph E p kw :
  agrees (partToBrailleR (graph_of E) p kw) (partToBraille E p kw).
Proof.
  unfold partToBrailleR, partToBraille. cbn [_translateArgs].
  apply agrees_bind.
  { destruct (negb _); [apply agrees_graph | apply agrees_ret]. }
  intros pt. apply agrees_bind; [apply agrees_graph|].
  intros segs. apply agrees_bind; [|intros; apply agrees_ret].
  apply agrees_for_append. intros seg.
  apply agrees_bind; [apply agrees_graph|].
  intros t. destruct (negb _); [apply agrees_ret | apply agrees_graph].
Qed.

(** Hence any two transcriptions of a Part by an implementation by functions
    have the outcome [partToBraille] computes. *)
Corollary partToBraille_outcome_unique E p kw h out :
  partToBrailleR (graph_of E) p kw h out → out = partToBraille E p kw h.
Proof. intros H. symmetry. by apply partToBrailleR_graph. Qed.

(** The hypothesis is needed: the relation follows the external functions,
    and has two outcomes when one of them has. *)
Lemma partToBrailleR_two_faced :
  partToBrailleR two_faced 0 ∅ ∅ (Ok "a", ∅) ∧
  partToBrailleR two_faced 0 ∅ ∅ (Ok "b", ∅).
Proof.
  split.
  - exists (Ok 0), ∅. split; [reflexivity|].
    exists (Ok [tt]), ∅. split; [reflexivity|].
    exists (Ok ["a"]), ∅. split; [|reflexivity].
    exists (Ok "a"), ∅. split; [|reflexivity].
    exists (Ok "a"), ∅. split; [by left|]. reflexivity.
  - exists (Ok 0), ∅. split; [reflexivity|].
    exists (Ok [tt]), ∅. split; [reflexivity|].
    exists (Ok ["b"]), ∅. split; [|reflexivity].
    exists (Ok "b"), ∅. split; [|reflexivity].
    exists (Ok "b"), ∅. split; [by right|]. reflexivity.
Qed.


(** ** Transcription by the engine of the specification *)

Lemma fresh_unallocated (h : Heap) : h !! fresh (dom h) = None.
Proof. apply not_elem_of_dom, is_fresh. Qed.

Lemma is_instance_insert_ne (h : Heap) l o c x :
  x ≠ l → is_instance (<[l := o]> h) c x = is_instance h c x.
Proof. intros Hne. unfold is_instance. by rewrite lookup_insert_ne. Qed.

Lemma elements_of_insert_ne (h : Heap) l o x :
  x ≠ l → elements_of (<[l := o]> h) x = elements_of h x.
Proof. intros Hne. unfold elements_of. by rewrite lookup_insert_ne. Qed.

Lemma elements_of_insert_eq (h : Heap) l o :
  elements_of (<[l := o]> h) l = oelements o.
Proof. unfold elements_of. by rewrite lookup_insert_eq. Qed.

(** A new stream adds no event to a measure. *)
Lemma events_of_insert_stream (h : Heap) l cls elems m :
  h !! l = None → m ≠ l →
  Engine.events_of (<[l := newStream cls elems]> h) m = Engine.events_of h m.
Proof.
  intros Hl Hm. unfold Engine.events_of. rewrite elements_of_insert_ne by done.
  apply list_omap_ext, Forall_Forall2_diag, Forall_forall. intros x _.
  destruct (decide (x = l)) as [->|Hx].
  - by rewrite lookup_insert_eq, Hl.
  - by rewrite lookup_insert_ne.
Qed.

Lemma join_singleton sep (s : string) : join sep [s] = s.
Proof. reflexivity. Qed.

(** The engine on a stream that holds one measure. *)
Lemma spec_transcribe_notated T h p measure kw :
  contained h p Measure = [measure] →
  truthy (_translateArgs kw).2 = false →
  transcribe_notated (spec_engine T) p kw h =
  (Ok (join nl (map Engine.render
         (Engine.segment_lines T
            (Engine.first_segment (Engine.events_of h measure) kw)))), h).
Proof.
  intros Hm Hdebug. unfold transcribe_notated. rewrite bind_unfold.
  cbn [findSegments spec_engine]. unfold Engine.findSegments. rewrite Hm.
  rewrite bind_unfold, mapM_unfold_cons. unfold segment_text at 1.
  rewrite bind_unfold. cbn [transcribe spec_engine]. unfold Engine.transcribe.
  rewrite ret_unfold, Hdebug. cbn [negb]. rewrite ret_unfold.
  reflexivity.
Qed.

(** A single object that is not a stream: the music of the object alone,
    without heading or measure number. *)
Lemma objectToBraille_event T h obj ev :
  h !! obj = Some (newEvent ev) →
  (objectToBraille (spec_engine T) obj ∅ h).1 =
  Ok (Engine.render
        (Engine.body_cells T
           {| Engine.events := [ev];
              Engine.startMeasureNumber := 1;
              Engine.showHeading := false;
              Engine.showFirstMeasureNumber := false;
              Engine.showClefSigns := false;
              Engine.showHand := None;
              Engine.maxLineLength := 40 |})).
Proof.
  intros Hobj. unfold objectToBraille. step.
  assert (is_instance h Stream obj = false) as ->.
  { unfold is_instance. by rewrite Hobj. }
  rewrite bind_unfold. unfold construct at 1. cbv beta zeta iota.
  set (m := fresh (dom h)).
  set (h1 := <[m := newStream Measure [obj]]> h).
  assert (h !! m = None) as Hm by apply fresh_unallocated.
  assert (obj ≠ m) as Hobjm by congruence.
  rewrite measureToBraille_unfold, bind_unfold.
  change (renotated (spec_engine T) (<["inPlace" := VBool true]> ∅) m h1)
    with (Ok m, h1). cbv beta iota.
  rewrite bind_unfold. unfold construct at 1. cbv beta zeta iota.
  set (p := fresh (dom h1)).
  set (h2 := <[p := newStream Part [m]]> h1).
  assert (h1 !! p = None) as Hp by apply fresh_unallocated.
  assert (m ≠ p) as Hmp.
  { intros <-. unfold h1 in Hp. by rewrite lookup_insert_eq in Hp. }
  assert (contained h2 p Measure = [m]) as Hcont.
  { unfold contained, h2. rewrite elements_of_insert_eq. cbn [oelements newStream].
    rewrite filter_cons_True; [done|].
    rewrite is_instance_insert_ne by done.
    unfold is_instance, h1. by rewrite lookup_insert_eq. }
  rewrite (spec_transcribe_notated T h2 p m _ Hcont) by reflexivity.
  cbn [fst]. f_equal.
  assert (Engine.events_of h2 m = [ev]) as ->.
  { unfold h2. rewrite events_of_insert_stream by done.
    unfold Engine.events_of, h1. rewrite elements_of_insert_eq.
    cbn [oelements newStream omap list_omap].
    rewrite lookup_insert_ne by done. by rewrite Hobj. }
  reflexivity.
Qed.

(** ** A lone dynamic *)

(** C6. A single Dynamic transcribed by [objectToBraille] with no keyword
    gives the introducer of dynamics followed by one unit for each character
    of the name of the dynamic and nothing else: no heading, no measure
    number, no barline.  For ["fff"] the units are three times the unit of
    the letter f. *)
Theorem objectToBraille_dynamic (T : Engine.Table) (h : Heap) (obj : loc)
    (symbol : string) :
  h !! obj = Some (newEvent (Dynamic symbol)) →
  (objectToBraille (spec_engine T) obj ∅ h).1
  = Ok (Engine.render
          (Engine.dynamicIntroducer T
           :: map (Engine.dynamicUnit T) (list_ascii_of_string symbol))) ∧
  length (map (Engine.dynamicUnit T) (list_ascii_of_string symbol))
  = String.length symbol ∧
  (symbol = "fff" →
   map (Engine.dynamicUnit T) (list_ascii_of_string symbol)
   = [Engine.dynamicUnit T "f"; Engine.dynamicUnit T "f"; Engine.dynamicUnit T "f"]).
Proof.
  intros Hobj. split; [|split].
  - rewrite (objectToBraille_event T h obj _ Hobj). do 2 f_equal.
    unfold Engine.body_cells.
    cbn [Engine.showFirstMeasureNumber Engine.showHand Engine.showHeading
         Engine.events Engine.showClefSigns Engine.encode from_option
         Engine.barline_of omap list_omap last app].
    by rewrite !app_nil_r.
  - rewrite length_map. clear. induction symbol as [|c s IH]; simpl; congruence.
  - intros ->. reflexivity.
Qed.

Lemma objectToBraille_dynamic_witness :
  Signs.fff !! 0 = Some (newEvent (Dynamic "fff")) ∧
  (objectToBraille (spec_engine Signs.table) 0 ∅ Signs.fff).1 = Ok "⠜⠋⠋⠋".
Proof.
  assert (Signs.fff !! 0 = Some (newEvent (Dynamic "fff"))) as H
    by (vm_compute; reflexivity).
  split; [exact H|].
  exact (proj1 (objectToBraille_dynamic Signs.table Signs.fff 0 "fff" H)).
Defined.

(** ** A Part of one measure *)

Lemma lines_of_newline_free s : newline_free s → lines_of s = [s].
Proof.
  unfold newline_free. induction s as [|c s IH]; simpl; [done|].
  intros [Hc Hs]%andb_true_iff. apply negb_true_iff in Hc. rewrite Hc, (IH Hs). done.
Qed.

Lemma lines_of_app s t :
  newline_free s → lines_of (s ++ nl ++ t) = s :: lines_of t.
Proof.
  unfold newline_free. induction s as [|c s IH]; [done|].
  change (String c s ++ nl ++ t) with (String c (s ++ nl ++ t)). simpl.
  intros [Hc Hs]%andb_true_iff. apply negb_true_iff in Hc. rewrite Hc, (IH Hs). done.
Qed.

Lemma high_byte_not_newline (n : N) :
  (128 ≤ n < 256)%N → negb (Ascii.eqb (ascii_of_N n) "010") = true.
Proof.
  intros Hn. apply negb_true_iff, Ascii.eqb_neq. intros Heq.
  apply (f_equal N_of_ascii) in Heq. rewrite N_ascii_embedding in Heq by lia.
  vm_compute in Heq. lia.
Qed.

Lemma render_cell_newline_free c : newline_free (Engine.render_cell c).
Proof.
  unfold newline_free, Engine.render_cell. cbn [string_forallb].
  assert (c mod 64 < 64)%N by (apply N.mod_upper_bound; lia).
  assert ((c / 64) mod 4 < 4)%N by (apply N.mod_upper_bound; lia).
  generalize dependent ((c / 64) mod 4)%N. intros high Hhigh.
  generalize dependent (c mod 64)%N. intros low Hlow.
  rewrite !high_byte_not_newline by lia. done.
Qed.

Lemma newline_free_app s t : newline_free s → newline_free t → newline_free (s ++ t).
Proof. unfold newline_free. rewrite string_forallb_app. by intros -> ->. Qed.

Lemma join_empty_cons (s : string) l : join "" (s :: l) = s ++ join "" l.
Proof.
  unfold join. destruct l as [|t l]; [by rewrite string_app_empty_r|]. reflexivity.
Qed.

Lemma render_newline_free cells : newline_free (Engine.render cells).
Proof.
  unfold Engine.render. induction cells as [|c cells IH]; [done|].
  cbn [map]. rewrite join_empty_cons.
  apply newline_free_app; [apply render_cell_newline_free | exact IH].
Qed.

(** Renotation by the engine: the copy holds what the stream holds. *)
Lemma contained_copy (h : Heap) p o cls :
  h !! p = Some o → issubclass (ocls o) cls = false →
  contained (<[fresh (dom h) := o]> h) (fresh (dom h)) cls = contained h p cls.
Proof.
  intros Hp Hcls. pose proof (fresh_unallocated h) as Hc.
  unfold contained. rewrite elements_of_insert_eq.
  unfold elements_of. rewrite Hp.
  apply list_filter_iff. intros x.
  destruct (decide (x = fresh (dom h))) as [->|Hx].
  - unfold is_instance. by rewrite lookup_insert_eq, Hc, Hcls.
  - by rewrite is_instance_insert_ne.
Qed.

(** The engine on a Part that holds one measure, with no keyword: the copy
    is transcribed, with heading and measure number. *)
Lemma objectToBraille_one_measure T h p measure :
  h !! p = Some (newStream Part [measure]) →
  is_instance h Measure measure = true →
  (objectToBraille (spec_engine T) p ∅ h).1 =
  Ok (join nl (map Engine.render
        (Engine.segment_lines T
           (Engine.first_segment (Engine.events_of h measure) ∅)))).
Proof.
  intros Hp Hm. unfold objectToBraille. step.
  assert (is_instance h Stream p = true) as ->.
  { unfold is_instance. by rewrite Hp. }
  rewrite streamToBraille_part by (left; unfold is_instance; by rewrite Hp).
  rewrite partToBraille_unfold, bind_unfold.
  change (renotated (spec_engine T) ∅ p h) with (Engine.makeNotation p h).
  unfold Engine.makeNotation. rewrite Hp. cbv beta zeta iota.
  set (c := fresh (dom h)).
  pose proof (fresh_unallocated h) as Hc. fold c in Hc.
  assert (measure ≠ c) as Hmc.
  { intros ->. unfold is_instance in Hm. by rewrite Hc in Hm. }
  assert (contained (<[c := newStream Part [measure]]> h) c Measure = [measure]) as Hcont.
  { unfold c. rewrite (contained_copy h p _ Measure Hp) by reflexivity.
    unfold contained, elements_of. rewrite Hp. cbn [oelements newStream].
    by rewrite filter_cons_True. }
  rewrite (spec_transcribe_notated T _ c measure _ Hcont) by reflexivity.
  cbn [fst]. by rewrite events_of_insert_stream.
Qed.

(** C7. A Part of one measure in 3/4 that holds a C4 quarter, D4, E4, F4 and
    G#4 sixteenths, a quarter rest and a dotted half, closed by a final
    barline, transcribed with no keyword, gives exactly two lines: a heading
    line that ends with the signs of the time signature 3/4 after its
    padding, and a line of music that begins with the signs of the measure
    number 1 and ends with the signs of the final barline. *)
Theorem objectToBraille_sample (T : Engine.Table) (h : Heap) (p measure : loc) :
  h !! p = Some (newStream Part [measure]) →
  is_instance h Measure measure = true →
  Engine.events_of h measure = sample_events →
  ∃ (text : string) (padding notes : list Engine.Cell),
    (objectToBraille (spec_engine T) p ∅ h).1 = Ok text ∧
    lines_of text =
      [Engine.render (padding ++ Engine.timeSignatureGlyphs T 3 4);
       Engine.render (Engine.measureNumberGlyphs T 1 ++ notes
                      ++ Engine.barlineGlyphs T FinalBar)] ∧
    Forall (λ c, c = Engine.blank) padding.
Proof.
  intros Hp Hm Hev.
  rewrite (objectToBraille_one_measure T h p measure Hp Hm), Hev.
  change (Engine.first_segment sample_events ∅)
    with {| Engine.events := sample_events;
            Engine.startMeasureNumber := 1;
            Engine.showHeading := true;
            Engine.showFirstMeasureNumber := true;
            Engine.showClefSigns := false;
            Engine.showHand := None;
            Engine.maxLineLength := 40 |}.
  eexists _, (replicate _ Engine.blank), _. split; [reflexivity|]. split.
  - unfold Engine.segment_lines.
    cbn [Engine.showHeading Engine.maxLineLength Engine.events app map].
    change (join nl [?a; ?b]) with (a ++ nl ++ b).
    rewrite lines_of_app by apply render_newline_free.
    rewrite lines_of_newline_free by apply render_newline_free.
    f_equal. unfold Engine.centered, Engine.heading_cells. do 2 f_equal.
    cbn. by rewrite app_nil_r.
  - apply Forall_replicate. reflexivity.
Qed.

Lemma objectToBraille_sample_witness :
  Signs.sample !! 0 = Some (newStream Part [1]) ∧
  is_instance Signs.sample Measure 1 = true ∧
  Engine.events_of Signs.sample 1 = sample_events ∧
  ∃ (text : string) (padding notes : list Engine.Cell),
    (objectToBraille (spec_engine Signs.table) 0 ∅ Signs.sample).1 = Ok text ∧
    lines_of text =
      [Engine.render (padding ++ Engine.timeSignatureGlyphs Signs.table 3 4);
       Engine.render (Engine.measureNumberGlyphs Signs.table 1 ++ notes
                      ++ Engine.barlineGlyphs Signs.table FinalBar)] ∧
    Forall (λ c, c = Engine.blank) padding.
Proof.
  assert (Signs.sample !! 0 = Some (newStream Part [1])) as Hp
    by (vm_compute; reflexivity).
  assert (is_instance Signs.sample Measure 1 = true) as Hm
    by (vm_compute; reflexivity).
  assert (Engine.events_of Signs.sample 1 = sample_events) as Hev
    by (vm_compute; reflexivity).
  refine (conj Hp (conj Hm (conj Hev _))).
  exact (objectToBraille_sample Signs.table Signs.sample 0 1 Hp Hm Hev).
Defined.

(** With the signs of [Signs.table]: the heading with the time signature,
    and the music from the measure number to the final barline. *)
Example objectToBraille_sample_output :
  (objectToBraille (spec_engine Signs.table) 0 ∅ Signs.sample).1
  = Ok ("⠀⠀⠀⠀⠀⠀⠀⠀⠀⠀⠀⠀⠀⠀⠀⠀⠀⠀⠼⠉⠲" ++ nl ++ "⠼⠁⠹⠵⠯⠿⠩⠷⠧⠏⠄⠣⠅").
Proof. vm_compute. reflexivity. Qed.

(** A lone measure shows neither heading nor measure number unless asked
    to: the time signature is then part of the music. *)
Example measureToBraille_sample_output :
  (measureToBraille (spec_engine Signs.table) 1 ∅ Signs.sample).1
  = Ok "⠼⠉⠲⠹⠵⠯⠿⠩⠷⠧⠏⠄⠣⠅" ∧
  (measureToBraille (spec_engine Signs.table) 1
     {["showFirstMeasureNumber" := VBool true]} Signs.sample).1
  = Ok "⠼⠁⠼⠉⠲⠹⠵⠯⠿⠩⠷⠧⠏⠄⠣⠅".
Proof. split; vm_compute; reflexivity. Qed.

(** The text the docstring of [objectToBraille] shows for its sample, a
    stream in 3/4 written [C4 D16 E F G# r4 e2.]: two lines, the time
    signature within the first, the measure number 1 at the start of the
    second and the final barline at its end. *)
Example objectToBraille_docstring_output :
  lines_of ("⠀⠀⠀⠀⠀⠀⠀⠼⠉⠲⠀⠀⠀⠀⠀⠀⠀" ++ nl ++ "⠼⠁⠀⠸⠹⠵⠋⠛⠩⠓⠧⠀⠐⠏⠄⠣⠅")
  = [Engine.render (replicate 7 Engine.blank
                    ++ Engine.timeSignatureGlyphs Signs.table 3 4
                    ++ replicate 7 Engine.blank);
     Engine.render (Engine.measureNumberGlyphs Signs.table 1
                    ++ [0; 56; 57; 53; 11; 27; 41; 19; 39; 0; 16; 15; 4]%N
                    ++ Engine.barlineGlyphs Signs.table FinalBar)].
Proof. vm_compute. reflexivity. Qed.

(** * Further properties of the module *)

(** ** Functions that agree on Parts, Measures and keyboard parts *)

Lemma bind_ext {A B} (m : M A) (k k' : A → M B) h :
  (∀ a h, k' a h = k a h) → (m ≫= k') h = (m ≫= k) h.
Proof. intros Hk. rewrite !bind_unfold. destruct (m h) as [[a|e] h1]; [apply Hk | done]. Qed.

Lemma for_append_ext {X} (body body' : X → M string) xs acc h :
  (∀ x h, body' x h = body x h) →
  for_append xs body' acc h = for_append xs body acc h.
Proof.
  intros Hb. revert acc h. induction xs as [|x xs IH]; intros acc h; [done|].
  cbn [for_append]. rewrite !bind_unfold, Hb.
  destruct (body x h) as [[t|e] h1]; [apply IH | done].
Qed.

Section Agreement.
Context (E E' : External) (keywords : Keywords).
Hypothesis part_agree :
  ∀ p h, partToBraille E' p keywords h = partToBraille E p keywords h.
Hypothesis measure_agree :
  ∀ m h, measureToBraille E' m keywords h = measureToBraille E m keywords h.
Hypothesis keyboard_agree :
  ∀ u l h, keyboardPartsToBraille E' u l keywords h
           = keyboardPartsToBraille E u l keywords h.

Lemma scoreToBraille_agree s h :
  scoreToBraille E' s keywords h = scoreToBraille E s keywords h.
Proof.
  unfold scoreToBraille. do 3 (apply bind_ext; intros ? ?).
  rewrite !bind_unfold, (for_append_ext _ _ _ _ _ part_agree). reflexivity.
Qed.

Lemma opusToBraille_agree o h :
  opusToBraille E' o keywords h = opusToBraille E o keywords h.
Proof.
  unfold opusToBraille. apply bind_ext; intros ? ?.
  rewrite !bind_unfold, (for_append_ext _ _ _ _ _ scoreToBraille_agree). reflexivity.
Qed.

Lemma streamToBraille_agree s h :
  streamToBraille E' s keywords h = streamToBraille E s keywords h.
Proof.
  unfold streamToBraille. do 2 (apply bind_ext; intros ? ?).
  destruct (_ || _); [apply part_agree|].
  apply bind_ext. intros [] ?; [apply measure_agree|].
  apply bind_ext. intros kps ?. destruct (bool_decide _).
  { destruct (kps !! 0), (kps !! 1); first [apply keyboard_agree | reflexivity]. }
  apply bind_ext. intros [] ?; [apply scoreToBraille_agree|].
  apply bind_ext. intros [] ?; [apply opusToBraille_agree | done].
Qed.

End Agreement.

(** What decides the transcription of any object: the transcription of
    Parts, of Measures and of keyboard parts. *)
Lemma objectToBraille_agree E E' keywords :
  (∀ p h, partToBraille E' p keywords h = partToBraille E p keywords h) →
  (∀ m h, measureToBraille E' m keywords h = measureToBraille E m keywords h) →
  (∀ u l h, keyboardPartsToBraille E' u l keywords h
            = keyboardPartsToBraille E u l keywords h) →
  (∀ m h, measureToBraille E' m (<["inPlace" := VBool true]> keywords) h
          = measureToBraille E m (<["inPlace" := VBool true]> keywords) h) →
  ∀ obj h, objectToBraille E' obj keywords h = objectToBraille E obj keywords h.
Proof.
  intros Hp Hm Hk Hm' obj h. unfold objectToBraille.
  apply bind_ext. intros [] ?; [by apply streamToBraille_agree|].
  apply bind_ext. intros m ?. apply Hm'.
Qed.

(** ** Transcription as is never renotates *)

Lemma transcribe_notated_with_makeNotation E mn p kw h :
  transcribe_notated (with_makeNotation E mn) p kw h = transcribe_notated E p kw h.
Proof. reflexivity. Qed.

Lemma partToBraille_in_place E mn kw p h :
  truthy (_translateArgs kw).1 = true →
  partToBraille (with_makeNotation E mn) p kw h = partToBraille E p kw h.
Proof.
  intros Hin. rewrite !partToBraille_unfold. unfold renotated. rewrite Hin. reflexivity.
Qed.

Lemma measureToBraille_in_place E mn kw m h :
  truthy (_translateArgs kw).1 = true →
  measureToBraille (with_makeNotation E mn) m kw h = measureToBraille E m kw h.
Proof.
  intros Hin. rewrite !measureToBraille_unfold. unfold renotated. rewrite Hin. reflexivity.
Qed.

Lemma keyboardPartsToBraille_in_place E mn kw u l h :
  truthy (_translateArgs kw).1 = true →
  keyboardPartsToBraille (with_makeNotation E mn) u l kw h
  = keyboardPartsToBraille E u l kw h.
Proof.
  intros Hin. rewrite !keyboardPartsToBraille_unfold. unfold renotated. rewrite Hin.
  reflexivity.
Qed.

Lemma inPlace_forced (kw : Keywords) :
  truthy (_translateArgs (<["inPlace" := VBool true]> kw)).1 = true.
Proof. unfold _translateArgs. by rewrite lookup_insert_eq. Qed.

(** X1. With [inPlace] true no function of the module calls [makeNotation]:
    whatever the object is (a single object, a Measure, a Part, keyboard
    parts, a Score, an Opus), the outcome of [objectToBraille], text or
    exception and store, is the same for every [makeNotation]. *)
Theorem objectToBraille_in_place_never_renotates (E : External) (mn : loc → M loc)
    (music21Obj : loc) (keywords : Keywords) (h : Heap) :
  truthy (_translateArgs keywords).1 = true →
  objectToBraille (with_makeNotation E mn) music21Obj keywords h
  = objectToBraille E music21Obj keywords h.
Proof.
  intros Hin. apply objectToBraille_agree; intros.
  - by apply partToBraille_in_place.
  - by apply measureToBraille_in_place.
  - by apply keyboardPartsToBraille_in_place.
  - apply measureToBraille_in_place, inPlace_forced.
Qed.

Lemma objectToBraille_in_place_never_renotates_witness :
  truthy (_translateArgs {["inPlace" := VInt 1]}).1 = true ∧
  objectToBraille (with_makeNotation Mock.engine no_makeNotation) 0
    {["inPlace" := VInt 1]} Mock.uneven
  = objectToBraille Mock.engine 0 {["inPlace" := VInt 1]} Mock.uneven.
Proof.
  assert (truthy (_translateArgs {["inPlace" := VInt 1]}).1 = true) as H
    by (vm_compute; reflexivity).
  exact (conj H (objectToBraille_in_place_never_renotates Mock.engine no_makeNotation
                   0 {["inPlace" := VInt 1]} Mock.uneven H)).
Defined.

(** Without [inPlace] the same call does renotate: with a [makeNotation]
    that raises, it raises. *)
Example objectToBraille_default_renotates :
  (objectToBraille (with_makeNotation Mock.engine no_makeNotation) 0 ∅ Mock.uneven).1
  = Raise (ExternalException "makeNotation").
Proof. vm_compute. reflexivity. Qed.

(** X2. An object that is not a Stream is always transcribed as it is:
    [objectToBraille] puts it in a new Measure, the Measure in a new Part, and
    transcribes that Part with [inPlace] set to [True] over whatever the
    caller gave, so that [makeNotation] is not called even when the caller
    asks for [inPlace=False]. *)
Theorem objectToBraille_object_as_is (E : External) (music21Obj : loc)
    (keywords : Keywords) (h : Heap) :
  is_instance h Stream music21Obj = false →
  objectToBraille E music21Obj keywords h
  = (music21Measure ← construct Measure [music21Obj];
     music21Part ← construct Part [music21Measure];
     transcribe_notated E music21Part
       (measure_keywords (<["inPlace" := VBool true]> keywords))) h ∧
  ∀ mn, objectToBraille (with_makeNotation E mn) music21Obj keywords h
        = objectToBraille E music21Obj keywords h.
Proof.
  intros Hobj.
  assert (∀ E', objectToBraille E' music21Obj keywords h
                = (music21Measure ← construct Measure [music21Obj];
                   music21Part ← construct Part [music21Measure];
                   transcribe_notated E' music21Part
                     (measure_keywords (<["inPlace" := VBool true]> keywords))) h) as Hall.
  { intros E'. unfold objectToBraille. step. rewrite Hobj. cbv iota.
    apply (bind_ext (construct Measure [music21Obj])). intros m h1.
    rewrite measureToBraille_unfold, bind_unfold.
    unfold renotated. rewrite inPlace_forced. reflexivity. }
  split; [apply Hall|]. intros mn. rewrite !Hall. reflexivity.
Qed.

Lemma objectToBraille_object_as_is_witness :
  is_instance Signs.fff Stream 0 = false ∧
  objectToBraille (with_makeNotation Mock.engine no_makeNotation) 0
    {["inPlace" := VBool false]} Signs.fff
  = objectToBraille Mock.engine 0 {["inPlace" := VBool false]} Signs.fff.
Proof.
  assert (is_instance Signs.fff Stream 0 = false) as H by (vm_compute; reflexivity).
  exact (conj H (proj2 (objectToBraille_object_as_is Mock.engine 0
                          {["inPlace" := VBool false]} Signs.fff H) no_makeNotation)).
Defined.

Example objectToBraille_object_as_is_output :
  (objectToBraille (with_makeNotation Mock.engine no_makeNotation) 0
     {["inPlace" := VBool false]} Signs.fff).1 = Ok "fff".
Proof. vm_compute. reflexivity. Qed.

(** ** The [debug] trace and the transcription *)

Lemma debug_measure_keywords (kw : Keywords) :
  (_translateArgs (measure_keywords kw)).2 = (_translateArgs kw).2.
Proof.
  unfold _translateArgs, measure_keywords. cbn [snd].
  rewrite lookup_insert_ne by done. rewrite !filled_lookup.
  by rewrite !decide_False.
Qed.

Lemma debug_inPlace (kw : Keywords) v :
  (_translateArgs (<["inPlace" := v]> kw)).2 = (_translateArgs kw).2.
Proof. unfold _translateArgs. cbn [snd]. by rewrite lookup_insert_ne. Qed.

Lemma transcribe_notated_no_debug E ss gs kw p h :
  truthy (_translateArgs kw).2 = false →
  transcribe_notated (with_str E ss gs) p kw h = transcribe_notated E p kw h.
Proof.
  intros Hd. unfold transcribe_notated.
  apply (bind_ext (findSegments E p kw)). intros segs h1.
  rewrite !bind_unfold.
  rewrite (mapM_ext (segment_text (with_str E ss gs) kw) (segment_text E kw)); [done|].
  intros seg h2. unfold segment_text. rewrite Hd. reflexivity.
Qed.

Lemma partToBraille_no_debug E ss gs kw p h :
  truthy (_translateArgs kw).2 = false →
  partToBraille (with_str E ss gs) p kw h = partToBraille E p kw h.
Proof.
  intros Hd. rewrite !partToBraille_unfold.
  apply (bind_ext (renotated E kw p)). intros pt h1.
  by apply transcribe_notated_no_debug.
Qed.

Lemma measureToBraille_no_debug E ss gs kw m h :
  truthy (_translateArgs kw).2 = false →
  measureToBraille (with_str E ss gs) m kw h = measureToBraille E m kw h.
Proof.
  intros Hd. rewrite !measureToBraille_unfold.
  apply (bind_ext (renotated E kw m)). intros mt h1.
  apply bind_ext. intros p h2.
  apply transcribe_notated_no_debug. by rewrite debug_measure_keywords.
Qed.

Lemma keyboardPartsToBraille_no_debug E ss gs kw u l h :
  truthy (_translateArgs kw).2 = false →
  keyboardPartsToBraille (with_str E ss gs) u l kw h
  = keyboardPartsToBraille E u l kw h.
Proof.
  intros Hd. rewrite !keyboardPartsToBraille_unfold.
  apply (bind_ext (renotated E kw u)). intros ut h1.
  apply (bind_ext (renotated E kw l)). intros lt h2.
  apply (bind_ext (findSegments E ut kw)). intros rh h3.
  apply (bind_ext (findSegments E lt kw)). intros lh h4.
  rewrite !bind_unfold.
  rewrite (mapM_ext (grand_segment_text (with_str E ss gs) kw)
             (grand_segment_text E kw)); [done|].
  intros pair h5. unfold grand_segment_text. rewrite Hd. reflexivity.
Qed.

(** X3. With [debug] false (or absent) [str] is applied to no segment and to
    no grand segment: whatever the object is, the outcome of
    [objectToBraille] is the same for every [str] of segments and of grand
    segments. *)
Theorem objectToBraille_no_debug_no_str (E : External)
    (ss : Segment E → M string) (gs : GrandSegment E → M string)
    (music21Obj : loc) (keywords : Keywords) (h : Heap) :
  truthy (_translateArgs keywords).2 = false →
  objectToBraille (with_str E ss gs) music21Obj keywords h
  = objectToBraille E music21Obj keywords h.
Proof.
  intros Hd. apply objectToBraille_agree; intros.
  - by apply partToBraille_no_debug.
  - by apply measureToBraille_no_debug.
  - by apply keyboardPartsToBraille_no_debug.
  - apply measureToBraille_no_debug. by rewrite debug_inPlace.
Qed.

Lemma objectToBraille_no_debug_no_str_witness :
  truthy (_translateArgs {["debug" := VNone]}).2 = false ∧
  objectToBraille (with_str Mock.engine no_str no_str) 0 {["debug" := VNone]} Mock.uneven
  = objectToBraille Mock.engine 0 {["debug" := VNone]} Mock.uneven.
Proof.
  assert (truthy (_translateArgs {["debug" := VNone]}).2 = false) as H
    by (vm_compute; reflexivity).
  exact (conj H (objectToBraille_no_debug_no_str Mock.engine no_str no_str
                   0 {["debug" := VNone]} Mock.uneven H)).
Defined.

(** X4. With [debug] true [keyboardPartsToBraille] never reads the
    [transcription] of a grand segment: its outcome is the same for every
    implementation of that attribute. *)
Theorem keyboardPartsToBraille_debug_no_transcription (E : External)
    (tr : GrandSegment E → M string)
    (music21PartStaffUpper music21PartStaffLower : loc) (keywords : Keywords)
    (h : Heap) :
  truthy (_translateArgs keywords).2 = true →
  keyboardPartsToBraille (with_transcription E tr)
    music21PartStaffUpper music21PartStaffLower keywords h
  = keyboardPartsToBraille E music21PartStaffUpper music21PartStaffLower keywords h.
Proof.
  intros Hd. rewrite !keyboardPartsToBraille_unfold.
  apply (bind_ext (renotated E keywords music21PartStaffUpper)). intros ut h1.
  apply (bind_ext (renotated E keywords music21PartStaffLower)). intros lt h2.
  apply (bind_ext (findSegments E ut keywords)). intros rh h3.
  apply (bind_ext (findSegments E lt keywords)). intros lh h4.
  rewrite !bind_unfold.
  rewrite (mapM_ext (grand_segment_text (with_transcription E tr) keywords)
             (grand_segment_text E keywords)); [done|].
  intros pair h5. unfold grand_segment_text. rewrite Hd. reflexivity.
Qed.

Lemma keyboardPartsToBraille_debug_no_transcription_witness :
  truthy (_translateArgs {["debug" := VBool true]}).2 = true ∧
  keyboardPartsToBraille (with_transcription Mock.engine no_str) 2 3
    {["debug" := VBool true]} Mock.uneven
  = keyboardPartsToBraille Mock.engine 2 3 {["debug" := VBool true]} Mock.uneven.
Proof.
  assert (truthy (_translateArgs {["debug" := VBool true]}).2 = true) as H
    by (vm_compute; reflexivity).
  exact (conj H (keyboardPartsToBraille_debug_no_transcription Mock.engine no_str
                   2 3 {["debug" := VBool true]} Mock.uneven H)).
Defined.

(** X5. [partToBraille] transcribes every segment whatever [debug] is: when
    the transcription of the first segment raises, [partToBraille] raises the
    same exception, also under [debug], where the transcription is not part
    of the text. *)
Theorem partToBraille_transcribes_under_debug (E : External) (music21Part : loc)
    (keywords : Keywords) (h h1 h2 h3 : Heap) (partToTranscribe : loc)
    (brailleSegment : Segment E) (segments : list (Segment E)) (e : Exn) :
  renotated E keywords music21Part h = (Ok partToTranscribe, h1) →
  findSegments E partToTranscribe keywords h1 = (Ok (brailleSegment :: segments), h2) →
  transcribe E brailleSegment h2 = (Raise e, h3) →
  partToBraille E music21Part keywords h = (Raise e, h3).
Proof.
  intros Hr Hf Ht. rewrite partToBraille_unfold, (bind_ok _ _ _ _ _ Hr).
  unfold transcribe_notated. rewrite (bind_ok _ _ _ _ _ Hf).
  rewrite bind_unfold, mapM_unfold_cons. unfold segment_text at 1.
  rewrite (bind_raise _ _ _ _ _ Ht). reflexivity.
Qed.

Lemma partToBraille_transcribes_under_debug_witness :
  renotated failing_engine {["debug" := VBool true; "inPlace" := VBool true]} 0 Mock.tiny
  = (Ok 0, Mock.tiny) ∧
  findSegments failing_engine 0 {["debug" := VBool true; "inPlace" := VBool true]} Mock.tiny
  = (Ok [1], Mock.tiny) ∧
  transcribe failing_engine 1 Mock.tiny
  = (Raise (ExternalException "BrailleSegmentException"), Mock.tiny) ∧
  partToBraille failing_engine 0 {["debug" := VBool true; "inPlace" := VBool true]} Mock.tiny
  = (Raise (ExternalException "BrailleSegmentException"), Mock.tiny).
Proof.
  set (kw := {["debug" := VBool true; "inPlace" := VBool true]} : Keywords).
  assert (renotated failing_engine kw 0 Mock.tiny = (Ok 0, Mock.tiny)) as Hr
    by (vm_compute; reflexivity).
  assert (findSegments failing_engine 0 kw Mock.tiny = (Ok [1], Mock.tiny)) as Hf
    by (vm_compute; reflexivity).
  assert (transcribe failing_engine 1 Mock.tiny
          = (Raise (ExternalException "BrailleSegmentException"), Mock.tiny)) as Ht
    by reflexivity.
  exact (conj Hr (conj Hf (conj Ht
           (partToBraille_transcribes_under_debug failing_engine 0 kw
              Mock.tiny Mock.tiny Mock.tiny Mock.tiny 0 1 [] _ Hr Hf Ht)))).
Defined.

(** ** The objects of the caller *)

Lemma keeps_ret {A} owned (a : A) (Q : A → Prop) : Q a → keeps owned (mret a) Q.
Proof. intros Ha h _. split; [apply preserves_refl|]. by intros ? [= <-]. Qed.

Lemma keeps_raise {A} owned e (Q : A → Prop) : keeps owned (raise e) Q.
Proof. intros h _. split; [apply preserves_refl | discriminate]. Qed.

Lemma keeps_bind {A B} owned (m : M A) (k : A → M B) (P : A → Prop) (Q : B → Prop) :
  keeps owned m P → (∀ a, P a → keeps owned (k a) Q) → keeps owned (m ≫= k) Q.
Proof.
  intros Hm Hk h Hdom. rewrite bind_unfold.
  destruct (Hm h Hdom) as [H1 HP].
  destruct (m h) as [[a|e] h1]; simpl in *; [|split; [exact H1 | discriminate]].
  destruct (Hk a (HP a eq_refl) h1) as [H2 HQ]; [by eapply preserves_dom|].
  split; [by eapply preserves_trans | exact HQ].
Qed.

Lemma keeps_weaken {A} owned (m : M A) (P Q : A → Prop) :
  keeps owned m P → (∀ a, P a → Q a) → keeps owned m Q.
Proof. intros Hm HPQ h Hdom. destruct (Hm h Hdom) as [H1 HP]. split; [done|]. eauto. Qed.

Lemma keeps_for_append {X} owned (body : X → M string) xs acc :
  Forall (λ x, keeps owned (body x) (λ _, True)) xs →
  keeps owned (for_append xs body acc) (λ _, True).
Proof.
  intros Hall. revert acc. induction Hall as [|x xs Hx _ IH]; intros acc.
  - by apply keeps_ret.
  - cbn [for_append]. eapply keeps_bind; [exact Hx|]. intros line _. apply IH.
Qed.

Lemma keeps_mapM {X} owned (body : X → M string) xs :
  Forall (λ x, keeps owned (body x) (λ _, True)) xs →
  keeps owned (mapM body xs) (λ _, True).
Proof.
  intros Hall h Hdom.
  destruct (keeps_for_append owned body xs [] Hall h Hdom) as [H _].
  rewrite for_append_nil_mapM in H. by split.
Qed.

Lemma keeps_isinstance owned l c : keeps owned (isinstance l c) (λ _, True).
Proof. intros h _. split; [apply preserves_refl | done]. Qed.

Lemma keeps_metadataToString owned md : keeps owned (metadataToString md) (λ _, True).
Proof. intros h _. split; [apply preserves_refl | done]. Qed.

(** A new stream is none of the objects that exist. *)
Lemma keeps_construct owned c elems : keeps owned (construct c elems) (λ l, l ∉ owned).
Proof.
  intros h Hdom. unfold construct. cbn [fst snd]. split.
  - intros l Hl. rewrite lookup_insert_ne; [done|].
    intros <-. apply Hdom in Hl. by apply is_fresh in Hl.
  - intros l [= <-] Hin. apply Hdom in Hin. by apply is_fresh in Hin.
Qed.

Section Frame.
Context (E : External) (owned : gset loc).
Hypothesis renotation : renotation_copies E owned.
Hypothesis segmentation : segmentation_is_local E owned.
Hypothesis grand_segments : grand_segments_are_local E owned.

Lemma keeps_renotated kw s :
  truthy (_translateArgs kw).1 = false →
  keeps owned (renotated E kw s) (λ copy, copy ∉ owned).
Proof.
  intros Hin h Hdom. unfold renotated. rewrite Hin. cbn [negb].
  destruct (makeNotation E s h) as [r h1] eqn:Hmn.
  destruct (renotation _ _ _ _ Hdom Hmn) as [H1 Hfresh]. split; [exact H1|].
  cbn [fst]. intros copy Hr. by apply Hfresh.
Qed.

Lemma keeps_transcribe_notated p kw :
  p ∉ owned → keeps owned (transcribe_notated E p kw) (λ _, True).
Proof.
  intros Hp h Hdom. split; [|done]. by apply transcribe_notated_preserves.
Qed.

Lemma keeps_findSegments p kw :
  p ∉ owned → keeps owned (findSegments E p kw) (Forall (segment_is_local E owned)).
Proof.
  intros Hp h Hdom. destruct (findSegments E p kw h) as [r h1] eqn:Hfs.
  destruct (segmentation _ _ _ _ _ Hdom Hp Hfs) as [H1 Hall]. split; [exact H1|].
  cbn [fst]. intros segs Hr. by apply Hall.
Qed.

Lemma keeps_grand_segment_text kw pair :
  segment_is_local E owned pair.1 → segment_is_local E owned pair.2 →
  keeps owned (grand_segment_text E kw pair) (λ _, True).
Proof.
  intros Hrh Hlh h Hdom. split; [|done]. unfold grand_segment_text. rewrite bind_unfold.
  destruct (BrailleGrandSegment E pair.1 pair.2 h) as [r h1] eqn:Hbg.
  destruct (grand_segments _ _ _ _ _ Hdom Hrh Hlh Hbg) as [H1 Hrender].
  destruct r as [bg|e]; [|exact H1].
  assert (owned ⊆ dom h1) as Hdom1 by by eapply preserves_dom.
  destruct (Hrender bg eq_refl h1 Hdom1) as [Htr Hstr].
  destruct (negb _); by eapply preserves_trans.
Qed.

Lemma keeps_partToBraille kw p :
  truthy (_translateArgs kw).1 = false →
  keeps owned (partToBraille E p kw) (λ _, True).
Proof.
  intros Hin h Hdom.
  assert (keeps owned (pt ← renotated E kw p; transcribe_notated E pt kw) (λ _, True)) as H.
  { eapply keeps_bind; [by apply keeps_renotated|]. intros pt Hpt.
    by apply keeps_transcribe_notated. }
  specialize (H h Hdom). rewrite <- partToBraille_unfold in H. exact H.
Qed.

Lemma keeps_measureToBraille kw m :
  truthy (_translateArgs kw).1 = false →
  keeps owned (measureToBraille E m kw) (λ _, True).
Proof.
  intros Hin h Hdom.
  assert (keeps owned (mt ← renotated E kw m;
                       p ← construct Part [mt];
                       transcribe_notated E p (measure_keywords kw)) (λ _, True)) as H.
  { eapply keeps_bind; [by apply keeps_renotated|]. intros mt _.
    eapply keeps_bind; [apply keeps_construct|]. intros p Hp.
    by apply keeps_transcribe_notated. }
  specialize (H h Hdom). rewrite <- measureToBraille_unfold in H. exact H.
Qed.

Lemma Forall_zip_local (rh lh : list (Segment E)) :
  Forall (segment_is_local E owned) rh → Forall (segment_is_local E owned) lh →
  Forall (λ pair, segment_is_local E owned pair.1 ∧ segment_is_local E owned pair.2)
         (zip rh lh).
Proof.
  intros Hrh. revert lh. induction Hrh as [|r rh Hr _ IH]; intros lh Hlh; [constructor|].
  destruct Hlh as [|l lh Hl Hlh]; [constructor|]. cbn [zip zip_with].
  constructor; [done | by apply IH].
Qed.

Lemma keeps_keyboardPartsToBraille kw u l :
  truthy (_translateArgs kw).1 = false →
  keeps owned (keyboardPartsToBraille E u l kw) (λ _, True).
Proof.
  intros Hin h Hdom.
  assert (keeps owned
            (upper ← renotated E kw u;
             lower ← renotated E kw l;
             rhSegments ← findSegments E upper kw;
             lhSegments ← findSegments E lower kw;
             texts ← mapM (grand_segment_text E kw) (zip rhSegments lhSegments);
             mret (join nl texts)) (λ _, True)) as H.
  { eapply keeps_bind; [by apply keeps_renotated|]. intros ut Hut.
    eapply keeps_bind; [by apply keeps_renotated|]. intros lt Hlt.
    eapply keeps_bind; [by apply keeps_findSegments|]. intros rh Hrh.
    eapply keeps_bind; [by apply keeps_findSegments|]. intros lh Hlh.
    eapply keeps_bind; [|intros; by apply keeps_ret].
    apply keeps_mapM. eapply Forall_impl; [by apply Forall_zip_local|].
    intros pair [H1 H2]. by apply keeps_grand_segment_text. }
  specialize (H h Hdom). rewrite <- keyboardPartsToBraille_unfold in H. exact H.
Qed.

Lemma keeps_scoreToBraille kw s :
  truthy (_translateArgs kw).1 = false →
  keeps owned (scoreToBraille E s kw) (λ _, True).
Proof.
  intros Hin. unfold scoreToBraille.
  eapply keeps_bind with (P := λ _, True); [by intros h _; split; [apply preserves_refl|]|].
  intros mds _. eapply keeps_bind.
  { apply keeps_for_append, Forall_forall. intros md _. apply keeps_metadataToString. }
  intros lines _.
  eapply keeps_bind with (P := λ _, True); [by intros h _; split; [apply preserves_refl|]|].
  intros parts _. eapply keeps_bind; [|intros; by apply keeps_ret].
  apply keeps_for_append, Forall_forall. intros p _. by apply keeps_partToBraille.
Qed.

Lemma keeps_opusToBraille kw o :
  truthy (_translateArgs kw).1 = false →
  keeps owned (opusToBraille E o kw) (λ _, True).
Proof.
  intros Hin. unfold opusToBraille.
  eapply keeps_bind with (P := λ _, True); [by intros h _; split; [apply preserves_refl|]|].
  intros scores _. eapply keeps_bind; [|intros; by apply keeps_ret].
  apply keeps_for_append, Forall_forall. intros s _. by apply keeps_scoreToBraille.
Qed.

Lemma keeps_streamToBraille kw s :
  truthy (_translateArgs kw).1 = false →
  keeps owned (streamToBraille E s kw) (λ _, True).
Proof.
  intros Hin. unfold streamToBraille.
  eapply keeps_bind; [apply keeps_isinstance|]. intros isPart _.
  eapply keeps_bind; [apply keeps_isinstance|]. intros isTiny _.
  destruct (_ || _); [by apply keeps_partToBraille|].
  eapply keeps_bind; [apply keeps_isinstance|]. intros [] _;
    [by apply keeps_measureToBraille|].
  eapply keeps_bind with (P := λ _, True); [by intros h _; split; [apply preserves_refl|]|].
  intros kps _. destruct (bool_decide _).
  { destruct (kps !! 0), (kps !! 1);
      first [by apply keeps_keyboardPartsToBraille | apply keeps_raise]. }
  eapply keeps_bind; [apply keeps_isinstance|]. intros [] _;
    [by apply keeps_scoreToBraille|].
  eapply keeps_bind; [apply keeps_isinstance|]. intros [] _;
    [by apply keeps_opusToBraille | apply keeps_raise].
Qed.

End Frame.

Lemma Mock_grand_segments_are_local owned : grand_segments_are_local Mock.engine owned.
Proof.
  intros rh lh h r h' _ _ _. cbn [BrailleGrandSegment Mock.engine]. unfold Mock.grand.
  rewrite ret_unfold. intros [= <- <-]. split; [apply preserves_refl|].
  intros bg _ h0 _. split; apply preserves_refl.
Qed.

(** X6. With [inPlace] false (or absent) [streamToBraille] hands no stream
    of the caller to the segmentation: a Part, a lone Measure, each of two
    keyboard staves and every Part of a Score or of the Scores of an Opus is
    renotated first.  For a renotation that returns a copy and segments and
    grand segments that are confined to the stream they were found in, the
    objects that exist before the call are unchanged after it, whatever the
    kind of the stream and whether the call returns or raises
    ([getElementsByClass] being a selection that changes nothing). *)
Theorem streamToBraille_keeps_the_callers_objects (E : External) (owned : gset loc)
    (music21Stream : loc) (keywords : Keywords) (h : Heap) :
  truthy (_translateArgs keywords).1 = false →
  owned ⊆ dom h →
  renotation_copies E owned → segmentation_is_local E owned →
  grand_segments_are_local E owned →
  preserves owned h (streamToBraille E music21Stream keywords h).2.
Proof.
  intros Hin Hdom Hmn Hseg Hgrand.
  by apply (keeps_streamToBraille E owned Hmn Hseg Hgrand keywords music21Stream Hin h).
Qed.

Lemma streamToBraille_keeps_the_callers_objects_witness :
  truthy (_translateArgs ∅).1 = false ∧
  dom Mock.uneven ⊆ dom Mock.uneven ∧
  renotation_copies Mock.engine (dom Mock.uneven) ∧
  segmentation_is_local Mock.engine (dom Mock.uneven) ∧
  grand_segments_are_local Mock.engine (dom Mock.uneven) ∧
  preserves (dom Mock.uneven) Mock.uneven (streamToBraille Mock.engine 0 ∅ Mock.uneven).2.
Proof.
  refine (conj (reflexivity _) (conj (reflexivity _) (conj (Mock_renotation_copies _)
            (conj (Mock_segmentation_is_local _)
               (conj (Mock_grand_segments_are_local _) _))))).
  exact (streamToBraille_keeps_the_callers_objects Mock.engine (dom Mock.uneven) 0 ∅
           Mock.uneven (reflexivity _) (reflexivity _) (Mock_renotation_copies _)
           (Mock_segmentation_is_local _) (Mock_grand_segments_are_local _)).
Defined.

(** With the external functions of [Mock.engine] the two staves of
    [Mock.uneven] are copied to locations 10 and 11, and the ten objects of
    the caller are as they were; in place nothing is allocated. *)
Example streamToBraille_copies_output :
  dom (streamToBraille Mock.engine 0 ∅ Mock.uneven).2
  = dom Mock.uneven ∪ {[10; 11]} ∧
  (streamToBraille Mock.engine 0 {["inPlace" := VBool true]} Mock.uneven).2 = Mock.uneven.
Proof. split; vm_compute; reflexivity. Qed.

(** ** The page of [templates.braille] *)

Lemma objectToBraille_stream E s kw h :
  is_instance h Stream s = true →
  objectToBraille E s kw h = streamToBraille E s kw h.
Proof. intros Hs. unfold objectToBraille. step. by rewrite Hs. Qed.

Lemma braille_unfold E s h :
  braille E s h =
  match objectToBraille E s ∅ h with
  | (Ok brailleText, h') =>
      (Ok ("<html><body><pre>" ++ brailleText ++ "</pre></body></html>",
           "text/html; charset=utf-8"), h')
  | (Raise e, h') => (Raise e, h')
  end.
Proof. unfold braille. rewrite bind_unfold. by destruct (objectToBraille E s ∅ h) as [[]]. Qed.

(** X7. [templates.braille] passes no keyword on, so the stream it is given
    is never transcribed in place: for a renotation that returns a copy and
    segments confined to their streams, the objects that exist before the
    call are unchanged after it.  The page is the text of [objectToBraille]
    for the default keywords between the opening and the closing tags, with
    the content type of an HTML page in UTF-8; when [objectToBraille] raises,
    so does [braille], and no page is made. *)
Theorem braille_page_of_a_stream (E : External) (owned : gset loc)
    (outputStream : loc) (h : Heap) :
  is_instance h Stream outputStream = true →
  owned ⊆ dom h →
  renotation_copies E owned → segmentation_is_local E owned →
  grand_segments_are_local E owned →
  preserves owned h (braille E outputStream h).2 ∧
  (braille E outputStream h).1 =
  match (streamToBraille E outputStream ∅ h).1 with
  | Ok brailleText =>
      Ok ("<html><body><pre>" ++ brailleText ++ "</pre></body></html>",
          "text/html; charset=utf-8")
  | Raise e => Raise e
  end.
Proof.
  intros Hs Hdom Hmn Hseg Hgrand.
  pose proof (keeps_streamToBraille E owned Hmn Hseg Hgrand ∅ outputStream
                (reflexivity _) h Hdom) as [Hkeep _].
  rewrite braille_unfold, (objectToBraille_stream _ _ _ _ Hs).
  destruct (streamToBraille E outputStream ∅ h) as [[text|e] h']; by split.
Qed.

Lemma braille_page_of_a_stream_witness :
  is_instance Mock.tiny Stream 0 = true ∧
  dom Mock.tiny ⊆ dom Mock.tiny ∧
  renotation_copies Mock.engine (dom Mock.tiny) ∧
  segmentation_is_local Mock.engine (dom Mock.tiny) ∧
  grand_segments_are_local Mock.engine (dom Mock.tiny) ∧
  preserves (dom Mock.tiny) Mock.tiny (braille Mock.engine 0 Mock.tiny).2 ∧
  (braille Mock.engine 0 Mock.tiny).1 =
  match (streamToBraille Mock.engine 0 ∅ Mock.tiny).1 with
  | Ok brailleText =>
      Ok ("<html><body><pre>" ++ brailleText ++ "</pre></body></html>",
          "text/html; charset=utf-8")
  | Raise e => Raise e
  end.
Proof.
  refine (conj (reflexivity _) (conj (reflexivity _) (conj (Mock_renotation_copies _)
            (conj (Mock_segmentation_is_local _)
               (conj (Mock_grand_segments_are_local _) _))))).
  exact (braille_page_of_a_stream Mock.engine (dom Mock.tiny) 0 Mock.tiny
           (reflexivity _) (reflexivity _) (Mock_renotation_copies _)
           (Mock_segmentation_is_local _) (Mock_grand_segments_are_local _)).
Defined.

Example braille_page_output :
  (braille Mock.engine 0 Mock.tiny).1
  = Ok ("<html><body><pre>f</pre></body></html>", "text/html; charset=utf-8") ∧
  (braille Mock.engine 0 Mock.voice).1
  = Raise (BrailleTranslateException "Stream cannot be translated to Braille.").
Proof. split; vm_compute; reflexivity. Qed.

(** ** The exceptions of the module *)

Lemma returns_ret {A} (a : A) : returns (mret a).
Proof. intros h. by exists a, h. Qed.

Lemma returns_bind {A B} (m : M A) (k : A → M B) :
  returns m → (∀ a, returns (k a)) → returns (m ≫= k).
Proof.
  intros Hm Hk h. destruct (Hm h) as (a & h1 & Ha). rewrite (bind_ok _ _ _ _ _ Ha).
  apply Hk.
Qed.

Lemma returns_for_append {X} (body : X → M string) xs acc :
  (∀ x, returns (body x)) → returns (for_append xs body acc).
Proof.
  intros Hb. revert acc. induction xs as [|x xs IH]; intros acc; [apply returns_ret|].
  cbn [for_append]. apply returns_bind; [apply Hb|]. intros line. apply IH.
Qed.

Lemma returns_mapM {X} (body : X → M string) xs :
  (∀ x, returns (body x)) → returns (mapM body xs).
Proof.
  intros Hb h. destruct (returns_for_append body xs [] Hb h) as (ts & h' & Hts).
  rewrite for_append_nil_mapM in Hts. by exists ts, h'.
Qed.

Lemma returns_ext {A} (m m' : M A) : (∀ h, m' h = m h) → returns m → returns m'.
Proof. intros Heq Hm h. rewrite Heq. apply Hm. Qed.

Section Returns.
Context (E : External).
Hypothesis engine : engine_returns E.

Lemma returns_renotated kw s : returns (renotated E kw s).
Proof.
  destruct engine as (Hmn & _). unfold renotated.
  destruct (negb _); [apply Hmn | apply returns_ret].
Qed.

Lemma returns_transcribe_notated p kw : returns (transcribe_notated E p kw).
Proof.
  destruct engine as (_ & Hfs & Htr & Hstr & _). unfold transcribe_notated.
  apply returns_bind; [apply Hfs|]. intros segs.
  apply returns_bind; [|intros; apply returns_ret].
  apply returns_mapM. intros seg. unfold segment_text.
  apply returns_bind; [apply Htr|]. intros t.
  destruct (negb _); [apply returns_ret | apply Hstr].
Qed.

Lemma returns_partToBraille p kw : returns (partToBraille E p kw).
Proof.
  eapply returns_ext; [intros h; apply partToBraille_unfold|].
  apply returns_bind; [apply returns_renotated|]. intros pt.
  apply returns_transcribe_notated.
Qed.

Lemma returns_measureToBraille m kw : returns (measureToBraille E m kw).
Proof.
  eapply returns_ext; [intros h; apply measureToBraille_unfold|].
  apply returns_bind; [apply returns_renotated|]. intros mt.
  apply returns_bind; [by intros h; eexists _, _|]. intros p.
  apply returns_transcribe_notated.
Qed.

Lemma returns_keyboardPartsToBraille u l kw : returns (keyboardPartsToBraille E u l kw).
Proof.
  destruct engine as (_ & Hfs & _ & _ & Hbg & Htr & Hstr).
  eapply returns_ext; [intros h; apply keyboardPartsToBraille_unfold|].
  apply returns_bind; [apply returns_renotated|]. intros ut.
  apply returns_bind; [apply returns_renotated|]. intros lt.
  apply returns_bind; [apply Hfs|]. intros rh.
  apply returns_bind; [apply Hfs|]. intros lh.
  apply returns_bind; [|intros; apply returns_ret].
  apply returns_mapM. intros pair. unfold grand_segment_text.
  apply returns_bind; [apply Hbg|]. intros bg.
  destruct (negb _); [apply Htr | apply Hstr].
Qed.

Lemma returns_scoreToBraille s kw : returns (scoreToBraille E s kw).
Proof.
  unfold scoreToBraille.
  apply returns_bind; [by intros h; eexists _, _|]. intros mds.
  apply returns_bind.
  { apply returns_for_append. intros md h. by eexists _, _. }
  intros lines. apply returns_bind; [by intros h; eexists _, _|]. intros parts.
  apply returns_bind; [|intros; apply returns_ret].
  apply returns_for_append. intros p. apply returns_partToBraille.
Qed.

Lemma returns_opusToBraille o kw : returns (opusToBraille E o kw).
Proof.
  unfold opusToBraille.
  apply returns_bind; [by intros h; eexists _, _|]. intros scores.
  apply returns_bind; [|intros; apply returns_ret].
  apply returns_for_append. intros s. apply returns_scoreToBraille.
Qed.

Lemma streamToBraille_supported s kw h :
  if supported h s then ∃ text h', streamToBraille E s kw h = (Ok text, h')
  else streamToBraille E s kw h
       = (Raise (BrailleTranslateException "Stream cannot be translated to Braille."), h).
Proof.
  unfold supported, streamToBraille. do 2 step.
  destruct (is_instance h Part s || is_instance h TinyNotationStream s) eqn:HP;
    cbn [orb]; [apply returns_partToBraille|].
  step. destruct (is_instance h Measure s); cbn [orb]; [apply returns_measureToBraille|].
  step. destruct (bool_decide (length (contained h s PartStaff) = 2)) eqn:HK; cbn [orb].
  { apply bool_decide_eq_true_1 in HK.
    destruct (contained h s PartStaff) as [|upper [|lower [|]]]; try discriminate.
    cbn [lookup list_lookup]. apply returns_keyboardPartsToBraille. }
  step. destruct (is_instance h Score s); cbn [orb]; [apply returns_scoreToBraille|].
  step. destruct (is_instance h Opus s); [apply returns_opusToBraille | reflexivity].
Qed.

End Returns.


Lemma Mock_in_place_returns : engine_returns (with_makeNotation Mock.engine mret).
Proof. repeat split; intros; intros h; by eexists _, _. Qed.


(** ** Scores inside an Opus *)

(** X9. [scoreToBraille] and [opusToBraille] never transcribe bar over bar:
    they go through the Parts of a Score one by one with [partToBraille], and
    their outcome is the same for every implementation of the grand segments.
    The two-staves test belongs to [streamToBraille] alone, so a Score of
    exactly two staves inside an Opus keeps its metadata summary and has its
    staves transcribed one after the other. *)
Theorem opusToBraille_never_bar_over_bar (E : External) (G : Type)
    (bgs : Segment E → Segment E → M G) (tr gs : G → M string)
    (music21Stream : loc) (keywords : Keywords) (h : Heap) :
  scoreToBraille (with_keyboard E G bgs tr gs) music21Stream keywords h
  = scoreToBraille E music21Stream keywords h ∧
  opusToBraille (with_keyboard E G bgs tr gs) music21Stream keywords h
  = opusToBraille E music21Stream keywords h.
Proof.
  assert (∀ s h, scoreToBraille (with_keyboard E G bgs tr gs) s keywords h
                 = scoreToBraille E s keywords h) as Hscore.
  { intros s h0. unfold scoreToBraille. do 3 (apply bind_ext; intros ? ?).
    rewrite !bind_unfold.
    rewrite (for_append_ext (λ p, partToBraille E p keywords)
               (λ p, partToBraille (with_keyboard E G bgs tr gs) p keywords));
      [reflexivity|].
    intros p hp. reflexivity. }
  split; [apply Hscore|].
  unfold opusToBraille. apply bind_ext; intros scores hs.
  rewrite !bind_unfold.
  by rewrite (for_append_ext (λ s, scoreToBraille E s keywords)
                (λ s, scoreToBraille (with_keyboard E G bgs tr gs) s keywords)).
Qed.

(** The Score of two staves, alone and inside an Opus. *)
Example opusToBraille_two_staves_output :
  (streamToBraille Mock.engine 1 {["inPlace" := VBool true]} opus_of_uneven).1
  = Ok ("f" ++ nl ++ "p") ∧
  (streamToBraille Mock.engine 0 {["inPlace" := VBool true]} opus_of_uneven).1
  = Ok ("Title: Study" ++ nl ++ "f" ++ nl ++ "mf" ++ nl ++ "p").
Proof. split; vm_compute; reflexivity. Qed.

(** ** Metadata and the Parts of a Score *)

(** X10. The text of [metadataToString] does not depend on the order in
    which the dictionary [_workIds] is iterated: two Metadata objects with the
    same work identifiers, listed in any two orders, have the same text. *)
Theorem metadataToString_order_independent (music21Metadata music21Metadata' : loc)
    (h h' : Heap) :
  workIds_of h music21Metadata ≡ₚ workIds_of h' music21Metadata' →
  (metadataToString music21Metadata h).1 = (metadataToString music21Metadata' h').1.
Proof.
  intros Hp. rewrite !metadataToString_unfold. cbn [fst]. f_equal.
  by apply metadata_text_permutation.
Qed.

Lemma metadataToString_order_independent_witness :
  workIds_of two_orders 0 ≡ₚ workIds_of two_orders 1 ∧
  (metadataToString 0 two_orders).1 = (metadataToString 1 two_orders).1.
Proof.
  assert (workIds_of two_orders 0 ≡ₚ workIds_of two_orders 1) as Hp.
  { change (workIds_of two_orders 0)
      with ([("title", Some "Study"); ("opusNumber", Some "3")]
            ++ [("composer", @None string)])%list.
    symmetry.
    exact (Permutation_cons_append
             [("title", Some "Study"); ("opusNumber", Some "3")]
             ("composer", @None string)). }
  exact (conj Hp (metadataToString_order_independent 0 1 two_orders two_orders Hp)).
Defined.

Example metadataToString_two_orders_output :
  (metadataToString 1 two_orders).1 = Ok ("Opus Number: 3" ++ nl ++ "Title: Study").
Proof. vm_compute. reflexivity. Qed.

Lemma scoreToBraille_unfold E s kw h :
  scoreToBraille E s kw h =
  (transcriptions ← mapM (λ p, partToBraille E p kw) (contained h s Part);
   mret (join nl (map (λ md, metadata_text (workIds_of h md)) (contained h s Metadata)
                  ++ transcriptions)%list)) h.
Proof.
  unfold scoreToBraille. rewrite bind_unfold.
  unfold getElementsByClass at 1. cbv beta iota.
  rewrite bind_unfold, for_append_mapM, bind_unfold, mapM_metadataToString.
  rewrite ret_unfold, bind_unfold.
  unfold getElementsByClass at 1. cbv beta iota.
  rewrite bind_unfold, for_append_mapM, !bind_unfold.
  destruct (mapM (M:=M) _ _ h) as [[ts|e] h']; reflexivity.
Qed.

Lemma workId_loop_blank ids allBrailleLines :
  blank ids → workId_loop ids allBrailleLines = allBrailleLines.
Proof.
  induction 1 as [|[key value] ids Hid _ IH]; [done|].
  cbn in Hid. subst value. exact IH.
Qed.

Lemma metadata_text_blank ids : blank ids → metadata_text ids = "".
Proof. intros Hb. unfold metadata_text. by rewrite workId_loop_blank. Qed.

(** X11. A Metadata object none of whose work identifiers has a value gives
    the empty text, and [scoreToBraille] still appends it: the text of a
    Score whose Metadata objects are all blank starts with one empty line for
    each of them, followed by the transcriptions of the Parts. *)
Theorem scoreToBraille_blank_metadata (E : External) (music21Score : loc)
    (keywords : Keywords) (h h' : Heap) (transcriptions : list string) :
  Forall (λ md, blank (workIds_of h md)) (contained h music21Score Metadata) →
  runs (λ p, partToBraille E p keywords) (contained h music21Score Part) h
       transcriptions h' →
  scoreToBraille E music21Score keywords h
  = (Ok (join nl (replicate (length (contained h music21Score Metadata)) ""
                  ++ transcriptions)%list), h').
Proof.
  intros Hblank Hruns. apply mapM_runs in Hruns.
  rewrite scoreToBraille_unfold, (bind_ok _ _ _ _ _ Hruns), ret_unfold.
  assert (map (λ md, metadata_text (workIds_of h md)) (contained h music21Score Metadata)
          = replicate (length (contained h music21Score Metadata)) "") as ->; [|done].
  induction Hblank as [|md mds Hmd _ IH]; [done|].
  cbn [map length replicate]. by rewrite (metadata_text_blank _ Hmd), IH.
Qed.

Lemma scoreToBraille_blank_metadata_witness :
  Forall (λ md, blank (workIds_of blank_score md)) (contained blank_score 0 Metadata) ∧
  runs (λ p, partToBraille Mock.engine p {["inPlace" := VBool true]})
       (contained blank_score 0 Part) blank_score ["f"] blank_score ∧
  scoreToBraille Mock.engine 0 {["inPlace" := VBool true]} blank_score
  = (Ok (nl ++ "f"), blank_score).
Proof.
  assert (Forall (λ md, blank (workIds_of blank_score md))
                 (contained blank_score 0 Metadata)) as Hb.
  { change (contained blank_score 0 Metadata) with [1].
    repeat constructor. }
  assert (runs (λ p, partToBraille Mock.engine p {["inPlace" := VBool true]})
               (contained blank_score 0 Part) blank_score ["f"] blank_score) as Hr.
  { apply mapM_runs. vm_compute. reflexivity. }
  exact (conj Hb (conj Hr
           (scoreToBraille_blank_metadata Mock.engine 0 _ blank_score blank_score
              ["f"] Hb Hr))).
Defined.

(** X12. A Score fails exactly when one of its Parts does: [scoreToBraille]
    raises if and only if the transcription of one of the Parts raises, the
    Parts being taken in order, each in the store the one before left; the
    exception and the store are those of that Part, and the summaries and the
    transcriptions made before it are not returned. *)
Theorem scoreToBraille_raises_with_a_part (E : External) (music21Score : loc)
    (keywords : Keywords) (h h' : Heap) (e : Exn) :
  scoreToBraille E music21Score keywords h = (Raise e, h') ↔
  runs_raise (λ p, partToBraille E p keywords) (contained h music21Score Part) h e h'.
Proof.
  rewrite <- mapM_runs_raise, scoreToBraille_unfold, bind_unfold.
  destruct (mapM (M:=M) _ _ h) as [[ts|e0] h0].
  - rewrite ret_unfold. split; discriminate.
  - split; intros [= <- <-]; reflexivity.
Qed.

Lemma scoreToBraille_raises_with_a_part_witness :
  runs_raise (λ p, partToBraille failing_engine p ∅) (contained Mock.uneven 0 Part)
    Mock.uneven (ExternalException "BrailleSegmentException")
    (<[10 := newStream PartStaff [4; 5]]> Mock.uneven) ∧
  scoreToBraille failing_engine 0 ∅ Mock.uneven
  = (Raise (ExternalException "BrailleSegmentException"),
     <[10 := newStream PartStaff [4; 5]]> Mock.uneven).
Proof.
  assert (runs_raise (λ p, partToBraille failing_engine p ∅) (contained Mock.uneven 0 Part)
            Mock.uneven (ExternalException "BrailleSegmentException")
            (<[10 := newStream PartStaff [4; 5]]> Mock.uneven)) as Hr.
  { apply mapM_runs_raise. vm_compute. reflexivity. }
  exact (conj Hr (proj2 (scoreToBraille_raises_with_a_part failing_engine 0 ∅
                           Mock.uneven _ _) Hr)).
Defined.

(** ** Empty streams *)

Lemma is_instance_Score h s :
  is_instance h Score s = true →
  is_instance h Stream s = true ∧ is_instance h Part s = false ∧
  is_instance h TinyNotationStream s = false ∧ is_instance h Measure s = false.
Proof.
  unfold is_instance. destruct (h !! s) as [o|]; [|discriminate].
  by destruct (ocls o).
Qed.

Lemma is_instance_Opus h s :
  is_instance h Opus s = true →
  is_instance h Stream s = true ∧ is_instance h Part s = false ∧
  is_instance h TinyNotationStream s = false ∧ is_instance h Measure s = false ∧
  is_instance h Score s = false.
Proof.
  unfold is_instance. destruct (h !! s) as [o|]; [|discriminate].
  by destruct (ocls o).
Qed.

Lemma contained_empty h s c : elements_of h s = [] → contained h s c = [].
Proof. unfold contained. by intros ->. Qed.

(** X13. An empty Score and an empty Opus are transcribed to the empty
    text: [objectToBraille] returns it without an exception, calls none of
    the external functions and leaves the store as it was. *)
Theorem objectToBraille_empty_score_or_opus (E : External) (music21Obj : loc)
    (keywords : Keywords) (h : Heap) :
  is_instance h Score music21Obj = true ∨ is_instance h Opus music21Obj = true →
  elements_of h music21Obj = [] →
  objectToBraille E music21Obj keywords h = (Ok "", h).
Proof.
  intros Hkind Hempty.
  assert (length (contained h music21Obj PartStaff) ≠ 2) as HK
    by by rewrite contained_empty.
  destruct Hkind as [HS|HO].
  - destruct (is_instance_Score _ _ HS) as (Hs & HP & HT & HM).
    rewrite (objectToBraille_stream _ _ _ _ Hs), streamToBraille_score by done.
    rewrite scoreToBraille_unfold, !contained_empty by done. reflexivity.
  - destruct (is_instance_Opus _ _ HO) as (Hs & HP & HT & HM & HS).
    rewrite (objectToBraille_stream _ _ _ _ Hs), streamToBraille_opus by done.
    unfold opusToBraille. step. rewrite contained_empty by done. reflexivity.
Qed.

Lemma objectToBraille_empty_score_or_opus_witness :
  (is_instance empty_streams Score 1 = true ∨ is_instance empty_streams Opus 1 = true) ∧
  elements_of empty_streams 1 = [] ∧
  objectToBraille failing_engine 1 ∅ empty_streams = (Ok "", empty_streams).
Proof.
  assert (is_instance empty_streams Score 1 = true
          ∨ is_instance empty_streams Opus 1 = true) as Hk by (right; reflexivity).
  assert (elements_of empty_streams 1 = []) as He by reflexivity.
  exact (conj Hk (conj He
           (objectToBraille_empty_score_or_opus failing_engine 1 ∅ empty_streams Hk He))).
Defined.

(** ** Keys in camel case *)

Lemma is_upper_not_lower c : is_upper c = true → is_lower c = false.
Proof.
  intros Hu. destruct (is_lower c) eqn:Hl; [|done].
  apply is_lower_not_upper in Hl. congruence.
Qed.

Lemma span_app_stops p a rest :
  string_forallb p a = true → stops p rest → span p (a ++ rest) = (a, rest).
Proof.
  intros Ha Hrest. induction a as [|c a IH].
  - change ("" ++ rest) with rest. destruct rest as [|d rest]; [done|].
    simpl in *. by rewrite Hrest.
  - simpl in Ha. apply andb_true_iff in Ha as [Hc Ha].
    change (String c a ++ rest) with (String c (a ++ rest)).
    simpl. by rewrite Hc, (IH Ha).
Qed.

Lemma small_word_stops_upper w rest : is_small_word w → stops is_upper (w ++ rest).
Proof.
  intros [Hne Hw]. destruct w as [|c w]; [done|].
  simpl in Hw. apply andb_true_iff in Hw as [Hc _].
  change (String c w ++ rest) with (String c (w ++ rest)).
  by apply is_lower_not_upper.
Qed.

Lemma match_small_word w rest :
  is_small_word w → stops is_lower rest → match_word (w ++ rest) = Some (w, rest).
Proof.
  intros Hw Hrest. unfold match_word.
  pose proof (span_app_stops is_upper "" (w ++ rest) eq_refl
                (small_word_stops_upper w rest Hw)) as Hu.
  change ("" ++ (w ++ rest)) with (w ++ rest) in Hu. rewrite Hu.
  destruct Hw as [Hne Hw]. rewrite (span_app_stops is_lower w rest Hw Hrest).
  by destruct w.
Qed.

Lemma match_capital_word w rest :
  is_capital_word w → stops is_lower rest → match_word (w ++ rest) = Some (w, rest).
Proof.
  intros (c & r & -> & Hc & Hr) Hrest. unfold match_word.
  change (String c r ++ rest) with (String c "" ++ (r ++ rest)).
  rewrite (span_app_stops is_upper (String c "") (r ++ rest)).
  - destruct Hr as [Hne Hr]. rewrite (span_app_stops is_lower r rest Hr Hrest).
    by destruct r.
  - simpl. by rewrite Hc.
  - by apply small_word_stops_upper.
Qed.

Lemma capital_words_stop_lower others :
  Forall is_capital_word others → stops is_lower (join "" others).
Proof.
  intros [|w ws (c & r & -> & Hc & _) _]; [done|].
  rewrite join_empty_cons. change (String c r ++ join "" ws) with (String c (r ++ join "" ws)).
  by apply is_upper_not_lower.
Qed.

Lemma findall_fuel_capital_words fuel others :
  Forall is_capital_word others →
  (String.length (join "" others) ≤ fuel)%nat →
  findall_fuel fuel (join "" others) = others.
Proof.
  intros Hall. revert fuel. induction Hall as [|w ws Hw Hws IH]; intros fuel Hfuel.
  - by destruct fuel.
  - rewrite join_empty_cons in *.
    pose proof (match_capital_word w (join "" ws) Hw (capital_words_stop_lower ws Hws))
      as Hm.
    pose proof (match_word_shorter _ _ _ Hm) as Hlt.
    destruct fuel as [|fuel]; [lia|]. cbn [findall_fuel].
    destruct (w ++ join "" ws) as [|c tl] eqn:Hs; [simpl in Hlt; lia|].
    rewrite Hm. f_equal. apply IH. simpl in Hlt, Hfuel. lia.
Qed.

Lemma findall_camel first others :
  is_small_word first → Forall is_capital_word others →
  findall (camel first others) = first :: others.
Proof.
  intros Hf Hall. unfold findall, camel.
  pose proof (match_small_word first (join "" others) Hf
                (capital_words_stop_lower others Hall)) as Hm.
  pose proof (match_word_shorter _ _ _ Hm) as Hlt.
  destruct (first ++ join "" others) as [|c tl] eqn:Hs; [simpl in Hlt; lia|].
  cbn [String.length findall_fuel]. rewrite Hm. f_equal.
  apply findall_fuel_capital_words; [done|]. simpl in Hlt. lia.
Qed.

Lemma string_map_to_lower_small w :
  string_forallb is_lower w = true → string_map to_lower w = w.
Proof.
  induction w as [|c w IH]; [done|]. simpl.
  intros [Hc Hw]%andb_true_iff. rewrite (IH Hw). unfold to_lower.
  by rewrite (is_lower_not_upper _ Hc).
Qed.

Lemma capitalize_capital_word w : is_capital_word w → capitalize w = w.
Proof.
  intros (c & r & -> & Hc & _ & Hr). simpl.
  rewrite (string_map_to_lower_small _ Hr). unfold to_upper.
  by rewrite (is_upper_not_lower _ Hc).
Qed.

Lemma summary_line_camel first others value :
  is_small_word first → Forall is_capital_word others →
  summary_line (camel first others) value
  = join " " (capitalize first :: others) ++ ": " ++ value.
Proof.
  intros Hf Hall. unfold summary_line. rewrite (findall_camel _ _ Hf Hall).
  cbn [map]. do 3 f_equal.
  induction Hall as [|w ws Hw _ IH]; [done|].
  cbn [map]. by rewrite (capitalize_capital_word _ Hw), IH.
Qed.

(** X14. A work identifier whose key is in camel case (a word in small
    letters followed by words that start with a capital, as [movementName])
    and whose value is not [None] gives one line of the text of
    [metadataToString]: the first word with a capital, the other words as
    they are, separated by spaces, then [": "] and the value. *)
Theorem metadataToString_camel_case (music21Metadata : loc) (h : Heap)
    (first : string) (others : list string) (value : string) :
  is_small_word first → Forall is_capital_word others →
  (camel first others, Some value) ∈ workIds_of h music21Metadata →
  ∃ lines, metadataToString music21Metadata h = (Ok (join nl lines), h) ∧
           join " " (capitalize first :: others) ++ ": " ++ value ∈ lines.
Proof.
  intros Hf Hall Hin.
  exists (sorted (workId_loop (workIds_of h music21Metadata) [])). split; [done|].
  unfold sorted. rewrite merge_sort_Permutation, workId_loop_spec. cbn [app].
  rewrite <- (summary_line_camel _ _ _ Hf Hall).
  unfold summary_lines. apply list_elem_of_omap.
  exists (camel first others, Some value). by split.
Qed.

Lemma metadataToString_camel_case_witness :
  is_small_word "opus" ∧ Forall is_capital_word ["Number"] ∧
  ("opusNumber", Some "3") ∈ workIds_of two_orders 0 ∧
  ∃ lines, metadataToString 0 two_orders = (Ok (join nl lines), two_orders) ∧
           "Opus Number: 3" ∈ lines.
Proof.
  assert (is_small_word "opus") as Hf by done.
  assert (Forall is_capital_word ["Number"]) as Hall.
  { repeat constructor. by exists "N"%char, "umber". }
  assert (("opusNumber", Some "3") ∈ workIds_of two_orders 0) as Hin.
  { change (workIds_of two_orders 0)
      with [("title", Some "Study"); ("opusNumber", Some "3"); ("composer", @None string)].
    apply elem_of_cons. right. apply elem_of_cons. by left. }
  exact (conj Hf (conj Hall (conj Hin
           (metadataToString_camel_case 0 two_orders "opus" ["Number"] "3" Hf Hall Hin)))).
Defined.
